(** * Astra avatar controller: session, camera, timers and lip-sync

    A shallow embedding of the React component [App] of the Astra digital
    avatar (its hooks, event handlers, collaborator callbacks and timer
    callbacks), followed by the properties of its state controller.

    Conventions of the embedding:
    - a JavaScript string is the list of its UTF-16 code units;
    - a JavaScript number is the rational it denotes. The timer delays, the
      gesture index and the distortion amount are computed as IEEE 754
      computes them: every arithmetic result, and every literal that is not
      a double, is rounded to the nearest double ([rnd], ties to even; the
      exponent range is not bounded). The mouth shape and the pose derived
      from it are kept as the exact expressions of the source;
    - [Math.random] reads an oracle [random : nat -> Q], indexed by the
      number of draws made so far;
    - time is a logical clock in milliseconds, a timer runs exactly when it
      is due, and the earliest pending timer runs first;
    - an [async] handler runs to completion as one event; what its awaited
      collaborator does (resolve, reject, report progress) is an argument
      of the handler. For [startCamera] the part before its [await] and the
      part after it are also given on their own, so that requests which
      overlap can be run. *)

From Stdlib Require Import QArith Qround Qpower ZArith NArith List String Ascii.
From Stdlib Require Import Bool Lia Lqa.
From Stdlib Require Import PrimFloat FloatOps.
Import ListNotations.

(** ** JavaScript strings *)

Definition jsstring := list N.

(** An ASCII literal as a JavaScript string. *)
Definition js (s : string) : jsstring :=
  map N_of_ascii (list_ascii_of_string s).

Fixpoint jsstring_eqb (a b : jsstring) : bool :=
  match a, b with
  | [], [] => true
  | x :: a', y :: b' => N.eqb x y && jsstring_eqb a' b'
  | _, _ => false
  end.

(** [hay.startsWith(needle)] and [hay.includes(needle)]. *)
Fixpoint startsWith (needle hay : jsstring) : bool :=
  match needle, hay with
  | [], _ => true
  | _ :: _, [] => false
  | x :: needle', y :: hay' => N.eqb x y && startsWith needle' hay'
  end.

Fixpoint includes (needle hay : jsstring) : bool :=
  startsWith needle hay ||
  match hay with
  | [] => false
  | _ :: hay' => includes needle hay'
  end.

(** The code units [String.prototype.trim] strips: WhiteSpace and
    LineTerminator of ECMAScript. *)
Definition isWhiteSpace (c : N) : bool :=
  existsb (N.eqb c)
    [9; 10; 11; 12; 13; 32; 160; 5760; 8232; 8233; 8239; 8287; 12288; 65279]%N
  || (N.leb 8192 c && N.leb c 8202).

Fixpoint trimStart (s : jsstring) : jsstring :=
  match s with
  | [] => []
  | c :: s' => if isWhiteSpace c then trimStart s' else s
  end.

Definition trimEnd (s : jsstring) : jsstring := rev (trimStart (rev s)).

Definition trim (s : jsstring) : jsstring := trimEnd (trimStart s).

(** [s.slice(-1)]: the last code unit as a string, or the empty string. *)
Definition sliceLast (s : jsstring) : jsstring :=
  match rev s with
  | [] => []
  | c :: _ => [c]
  end.

(** [arr.includes(x)] on an array of strings. *)
Definition arrayIncludes (arr : list jsstring) (x : jsstring) : bool :=
  existsb (jsstring_eqb x) arr.

(** Truthiness of a string, and of a [string | null] value: the empty string
    and [null] are falsy. *)
Definition nonEmpty (s : jsstring) : bool :=
  match s with
  | [] => false
  | _ :: _ => true
  end.

Definition truthy (s : option jsstring) : bool :=
  match s with
  | None => false
  | Some t => nonEmpty t
  end.

Definition option_jsstring_eqb (a b : option jsstring) : bool :=
  match a, b with
  | None, None => true
  | Some x, Some y => jsstring_eqb x y
  | _, _ => false
  end.

(** ** JavaScript numbers *)

Definition pow2 (z : Z) : Q := (2 ^ z)%Q.

(** The binade of a positive number: the [e] with [2^e <= x < 2^(e+1)]. *)
Definition ilog2 (x : Q) : Z :=
  let c := (Z.log2 (Qnum x) - Z.log2 (Zpos (Qden x)))%Z in
  if Qle_bool (pow2 c) x then c else (c - 1)%Z.

(** The unit in the last place of a double in the binade of [x]: doubles
    carry 53 significant bits. *)
Definition ulp (x : Q) : Q := pow2 (ilog2 x - 52).

(** The nearest integer, ties to the even one. *)
Definition roundEven (q : Q) : Z :=
  let f := Qfloor q in
  match (q - inject_Z f ?= 1 # 2)%Q with
  | Lt => f
  | Gt => (f + 1)%Z
  | Eq => if Z.even f then f else (f + 1)%Z
  end.

Definition rndPos (x : Q) : Q := (inject_Z (roundEven (x / ulp x)) * ulp x)%Q.

(** The double nearest to [x], ties to even: what a literal denotes and what
    [+] and [*] return on the exact sum and product of their operands. *)
Definition rnd (x : Q) : Q :=
  match Qnum x with
  | Z0 => 0%Q
  | Zpos _ => rndPos x
  | Zneg _ => (- rndPos (- x))%Q
  end.

Definition isDouble (x : Q) : bool := Qeq_bool (rnd x) x.

(** The number a hardware double stands for, if it is finite. *)
Definition ofFloat (f : float) : option Q :=
  match Prim2SF f with
  | SpecFloat.S754_zero _ => Some 0%Q
  | SpecFloat.S754_finite s m e =>
      Some ((if s then -1 else 1) * inject_Z (Zpos m) * pow2 e)%Q
  | _ => None
  end.

(** The hardware double [f] stands for the number [q]. *)
Definition isFloat (f : float) (q : Q) : bool :=
  match ofFloat f with
  | Some x => Qeq_bool x q
  | None => false
  end.

(** ** The component's data *)

Inductive Status := Idle | Listening | Speaking.

Definition Status_eqb (a b : Status) : bool :=
  match a, b with
  | Idle, Idle | Listening, Listening | Speaking, Speaking => true
  | _, _ => false
  end.

Inductive FacingMode := User | Environment.

Inductive IdleAction := ActNone | Glance | Tilt | Shift.

Record MouthShape := { scale : Q; skew : Q }.

(** The callbacks handed to [setTimeout]. The idle-action callbacks carry
    the run of the idle effect whose closure they belong to. *)
Inductive TimerCallback :=
  | BlinkOuter
  | BlinkInner
  | IdleOuter (run : nat)
  | IdleInner (run : nat)
  | MemoryClear
  | VisionAttach.

Record Timer := { handle : nat; due : Q; callback : TimerCallback }.

(** Calls that reach the live-session collaborator. [SvcStart v] and
    [SvcSetVision v] record whether a video element was passed. *)
Inductive ServiceCall :=
  | SvcStart (vision : bool)
  | SvcStop
  | SvcSend (text : jsstring)
  | SvcSetVision (video : bool).

(** The state of the page: the [useState] cells and refs of [App], then the
    browser around them (video element and camera streams, clock and timers,
    random draws, collaborator calls, closures of the idle effect). *)
Record World := {
  needsApiKey : bool;
  audioLevel : Q;
  status : Status;
  isVisionSync : bool;
  facingMode : FacingMode;
  error : option jsstring;
  lastMemory : option jsstring;
  textInput : jsstring;
  astraResponse : option jsstring;
  latestResponseRef : jsstring;
  isTyping : bool;
  isBlinking : bool;
  mouthShape : MouthShape;
  idleAction : IdleAction;
  enableIdleActions : bool;
  videoUrl : option jsstring;
  isAnimating : bool;
  animationStatus : jsstring;
  (* videoRef.current is non-null / its srcObject *)
  videoMounted : bool;
  srcObject : option nat;
  (* camera streams whose tracks are running *)
  liveStreams : list nat;
  nextStream : nat;
  (* clock and pending timers *)
  now : Q;
  timers : list Timer;
  nextHandle : nat;
  (* number of Math.random() calls made *)
  drawn : nat;
  calls : list ServiceCall;
  (* idle effect: runs so far, run whose cleanup is registered, and the
     variable actionTimeout of each run *)
  idleRuns : nat;
  idleCleanup : option nat;
  actionTimeout : list (nat * nat)
}.

Definition set_needsApiKey (v : bool) (w : World) : World :=
  Build_World
    v (audioLevel w) (status w) (isVisionSync w) (facingMode w) (error w)
    (lastMemory w) (textInput w) (astraResponse w) (latestResponseRef w)
    (isTyping w) (isBlinking w) (mouthShape w) (idleAction w)
    (enableIdleActions w) (videoUrl w) (isAnimating w) (animationStatus w)
    (videoMounted w) (srcObject w) (liveStreams w) (nextStream w) (now w)
    (timers w) (nextHandle w) (drawn w) (calls w) (idleRuns w)
    (idleCleanup w) (actionTimeout w).

Definition set_audioLevel (v : Q) (w : World) : World :=
  Build_World
    (needsApiKey w) v (status w) (isVisionSync w) (facingMode w) (error w)
    (lastMemory w) (textInput w) (astraResponse w) (latestResponseRef w)
    (isTyping w) (isBlinking w) (mouthShape w) (idleAction w)
    (enableIdleActions w) (videoUrl w) (isAnimating w) (animationStatus w)
    (videoMounted w) (srcObject w) (liveStreams w) (nextStream w) (now w)
    (timers w) (nextHandle w) (drawn w) (calls w) (idleRuns w)
    (idleCleanup w) (actionTimeout w).

Definition set_status (v : Status) (w : World) : World :=
  Build_World
    (needsApiKey w) (audioLevel w) v (isVisionSync w) (facingMode w)
    (error w) (lastMemory w) (textInput w) (astraResponse w)
    (latestResponseRef w) (isTyping w) (isBlinking w) (mouthShape w)
    (idleAction w) (enableIdleActions w) (videoUrl w) (isAnimating w)
    (animationStatus w) (videoMounted w) (srcObject w) (liveStreams w)
    (nextStream w) (now w) (timers w) (nextHandle w) (drawn w) (calls w)
    (idleRuns w) (idleCleanup w) (actionTimeout w).

Definition set_isVisionSync (v : bool) (w : World) : World :=
  Build_World
    (needsApiKey w) (audioLevel w) (status w) v (facingMode w) (error w)
    (lastMemory w) (textInput w) (astraResponse w) (latestResponseRef w)
    (isTyping w) (isBlinking w) (mouthShape w) (idleAction w)
    (enableIdleActions w) (videoUrl w) (isAnimating w) (animationStatus w)
    (videoMounted w) (srcObject w) (liveStreams w) (nextStream w) (now w)
    (timers w) (nextHandle w) (drawn w) (calls w) (idleRuns w)
    (idleCleanup w) (actionTimeout w).

Definition set_facingMode (v : FacingMode) (w : World) : World :=
  Build_World
    (needsApiKey w) (audioLevel w) (status w) (isVisionSync w) v (error w)
    (lastMemory w) (textInput w) (astraResponse w) (latestResponseRef w)
    (isTyping w) (isBlinking w) (mouthShape w) (idleAction w)
    (enableIdleActions w) (videoUrl w) (isAnimating w) (animationStatus w)
    (videoMounted w) (srcObject w) (liveStreams w) (nextStream w) (now w)
    (timers w) (nextHandle w) (drawn w) (calls w) (idleRuns w)
    (idleCleanup w) (actionTimeout w).

Definition set_error (v : option jsstring) (w : World) : World :=
  Build_World
    (needsApiKey w) (audioLevel w) (status w) (isVisionSync w) (facingMode w)
    v (lastMemory w) (textInput w) (astraResponse w) (latestResponseRef w)
    (isTyping w) (isBlinking w) (mouthShape w) (idleAction w)
    (enableIdleActions w) (videoUrl w) (isAnimating w) (animationStatus w)
    (videoMounted w) (srcObject w) (liveStreams w) (nextStream w) (now w)
    (timers w) (nextHandle w) (drawn w) (calls w) (idleRuns w)
    (idleCleanup w) (actionTimeout w).

Definition set_lastMemory (v : option jsstring) (w : World) : World :=
  Build_World
    (needsApiKey w) (audioLevel w) (status w) (isVisionSync w) (facingMode w)
    (error w) v (textInput w) (astraResponse w) (latestResponseRef w)
    (isTyping w) (isBlinking w) (mouthShape w) (idleAction w)
    (enableIdleActions w) (videoUrl w) (isAnimating w) (animationStatus w)
    (videoMounted w) (srcObject w) (liveStreams w) (nextStream w) (now w)
    (timers w) (nextHandle w) (drawn w) (calls w) (idleRuns w)
    (idleCleanup w) (actionTimeout w).

Definition set_textInput (v : jsstring) (w : World) : World :=
  Build_World
    (needsApiKey w) (audioLevel w) (status w) (isVisionSync w) (facingMode w)
    (error w) (lastMemory w) v (astraResponse w) (latestResponseRef w)
    (isTyping w) (isBlinking w) (mouthShape w) (idleAction w)
    (enableIdleActions w) (videoUrl w) (isAnimating w) (animationStatus w)
    (videoMounted w) (srcObject w) (liveStreams w) (nextStream w) (now w)
    (timers w) (nextHandle w) (drawn w) (calls w) (idleRuns w)
    (idleCleanup w) (actionTimeout w).

Definition set_astraResponse (v : option jsstring) (w : World) : World :=
  Build_World
    (needsApiKey w) (audioLevel w) (status w) (isVisionSync w) (facingMode w)
    (error w) (lastMemory w) (textInput w) v (latestResponseRef w)
    (isTyping w) (isBlinking w) (mouthShape w) (idleAction w)
    (enableIdleActions w) (videoUrl w) (isAnimating w) (animationStatus w)
    (videoMounted w) (srcObject w) (liveStreams w) (nextStream w) (now w)
    (timers w) (nextHandle w) (drawn w) (calls w) (idleRuns w)
    (idleCleanup w) (actionTimeout w).

Definition set_latestResponseRef (v : jsstring) (w : World) : World :=
  Build_World
    (needsApiKey w) (audioLevel w) (status w) (isVisionSync w) (facingMode w)
    (error w) (lastMemory w) (textInput w) (astraResponse w) v (isTyping w)
    (isBlinking w) (mouthShape w) (idleAction w) (enableIdleActions w)
    (videoUrl w) (isAnimating w) (animationStatus w) (videoMounted w)
    (srcObject w) (liveStreams w) (nextStream w) (now w) (timers w)
    (nextHandle w) (drawn w) (calls w) (idleRuns w) (idleCleanup w)
    (actionTimeout w).

Definition set_isTyping (v : bool) (w : World) : World :=
  Build_World
    (needsApiKey w) (audioLevel w) (status w) (isVisionSync w) (facingMode w)
    (error w) (lastMemory w) (textInput w) (astraResponse w)
    (latestResponseRef w) v (isBlinking w) (mouthShape w) (idleAction w)
    (enableIdleActions w) (videoUrl w) (isAnimating w) (animationStatus w)
    (videoMounted w) (srcObject w) (liveStreams w) (nextStream w) (now w)
    (timers w) (nextHandle w) (drawn w) (calls w) (idleRuns w)
    (idleCleanup w) (actionTimeout w).

Definition set_isBlinking (v : bool) (w : World) : World :=
  Build_World
    (needsApiKey w) (audioLevel w) (status w) (isVisionSync w) (facingMode w)
    (error w) (lastMemory w) (textInput w) (astraResponse w)
    (latestResponseRef w) (isTyping w) v (mouthShape w) (idleAction w)
    (enableIdleActions w) (videoUrl w) (isAnimating w) (animationStatus w)
    (videoMounted w) (srcObject w) (liveStreams w) (nextStream w) (now w)
    (timers w) (nextHandle w) (drawn w) (calls w) (idleRuns w)
    (idleCleanup w) (actionTimeout w).

Definition set_mouthShape (v : MouthShape) (w : World) : World :=
  Build_World
    (needsApiKey w) (audioLevel w) (status w) (isVisionSync w) (facingMode w)
    (error w) (lastMemory w) (textInput w) (astraResponse w)
    (latestResponseRef w) (isTyping w) (isBlinking w) v (idleAction w)
    (enableIdleActions w) (videoUrl w) (isAnimating w) (animationStatus w)
    (videoMounted w) (srcObject w) (liveStreams w) (nextStream w) (now w)
    (timers w) (nextHandle w) (drawn w) (calls w) (idleRuns w)
    (idleCleanup w) (actionTimeout w).

Definition set_idleAction (v : IdleAction) (w : World) : World :=
  Build_World
    (needsApiKey w) (audioLevel w) (status w) (isVisionSync w) (facingMode w)
    (error w) (lastMemory w) (textInput w) (astraResponse w)
    (latestResponseRef w) (isTyping w) (isBlinking w) (mouthShape w) v
    (enableIdleActions w) (videoUrl w) (isAnimating w) (animationStatus w)
    (videoMounted w) (srcObject w) (liveStreams w) (nextStream w) (now w)
    (timers w) (nextHandle w) (drawn w) (calls w) (idleRuns w)
    (idleCleanup w) (actionTimeout w).

Definition set_enableIdleActions (v : bool) (w : World) : World :=
  Build_World
    (needsApiKey w) (audioLevel w) (status w) (isVisionSync w) (facingMode w)
    (error w) (lastMemory w) (textInput w) (astraResponse w)
    (latestResponseRef w) (isTyping w) (isBlinking w) (mouthShape w)
    (idleAction w) v (videoUrl w) (isAnimating w) (animationStatus w)
    (videoMounted w) (srcObject w) (liveStreams w) (nextStream w) (now w)
    (timers w) (nextHandle w) (drawn w) (calls w) (idleRuns w)
    (idleCleanup w) (actionTimeout w).

Definition set_videoUrl (v : option jsstring) (w : World) : World :=
  Build_World
    (needsApiKey w) (audioLevel w) (status w) (isVisionSync w) (facingMode w)
    (error w) (lastMemory w) (textInput w) (astraResponse w)
    (latestResponseRef w) (isTyping w) (isBlinking w) (mouthShape w)
    (idleAction w) (enableIdleActions w) v (isAnimating w)
    (animationStatus w) (videoMounted w) (srcObject w) (liveStreams w)
    (nextStream w) (now w) (timers w) (nextHandle w) (drawn w) (calls w)
    (idleRuns w) (idleCleanup w) (actionTimeout w).

Definition set_isAnimating (v : bool) (w : World) : World :=
  Build_World
    (needsApiKey w) (audioLevel w) (status w) (isVisionSync w) (facingMode w)
    (error w) (lastMemory w) (textInput w) (astraResponse w)
    (latestResponseRef w) (isTyping w) (isBlinking w) (mouthShape w)
    (idleAction w) (enableIdleActions w) (videoUrl w) v (animationStatus w)
    (videoMounted w) (srcObject w) (liveStreams w) (nextStream w) (now w)
    (timers w) (nextHandle w) (drawn w) (calls w) (idleRuns w)
    (idleCleanup w) (actionTimeout w).

Definition set_animationStatus (v : jsstring) (w : World) : World :=
  Build_World
    (needsApiKey w) (audioLevel w) (status w) (isVisionSync w) (facingMode w)
    (error w) (lastMemory w) (textInput w) (astraResponse w)
    (latestResponseRef w) (isTyping w) (isBlinking w) (mouthShape w)
    (idleAction w) (enableIdleActions w) (videoUrl w) (isAnimating w) v
    (videoMounted w) (srcObject w) (liveStreams w) (nextStream w) (now w)
    (timers w) (nextHandle w) (drawn w) (calls w) (idleRuns w)
    (idleCleanup w) (actionTimeout w).

Definition set_videoMounted (v : bool) (w : World) : World :=
  Build_World
    (needsApiKey w) (audioLevel w) (status w) (isVisionSync w) (facingMode w)
    (error w) (lastMemory w) (textInput w) (astraResponse w)
    (latestResponseRef w) (isTyping w) (isBlinking w) (mouthShape w)
    (idleAction w) (enableIdleActions w) (videoUrl w) (isAnimating w)
    (animationStatus w) v (srcObject w) (liveStreams w) (nextStream w)
    (now w) (timers w) (nextHandle w) (drawn w) (calls w) (idleRuns w)
    (idleCleanup w) (actionTimeout w).

Definition set_srcObject (v : option nat) (w : World) : World :=
  Build_World
    (needsApiKey w) (audioLevel w) (status w) (isVisionSync w) (facingMode w)
    (error w) (lastMemory w) (textInput w) (astraResponse w)
    (latestResponseRef w) (isTyping w) (isBlinking w) (mouthShape w)
    (idleAction w) (enableIdleActions w) (videoUrl w) (isAnimating w)
    (animationStatus w) (videoMounted w) v (liveStreams w) (nextStream w)
    (now w) (timers w) (nextHandle w) (drawn w) (calls w) (idleRuns w)
    (idleCleanup w) (actionTimeout w).

Definition set_liveStreams (v : list nat) (w : World) : World :=
  Build_World
    (needsApiKey w) (audioLevel w) (status w) (isVisionSync w) (facingMode w)
    (error w) (lastMemory w) (textInput w) (astraResponse w)
    (latestResponseRef w) (isTyping w) (isBlinking w) (mouthShape w)
    (idleAction w) (enableIdleActions w) (videoUrl w) (isAnimating w)
    (animationStatus w) (videoMounted w) (srcObject w) v (nextStream w)
    (now w) (timers w) (nextHandle w) (drawn w) (calls w) (idleRuns w)
    (idleCleanup w) (actionTimeout w).

Definition set_nextStream (v : nat) (w : World) : World :=
  Build_World
    (needsApiKey w) (audioLevel w) (status w) (isVisionSync w) (facingMode w)
    (error w) (lastMemory w) (textInput w) (astraResponse w)
    (latestResponseRef w) (isTyping w) (isBlinking w) (mouthShape w)
    (idleAction w) (enableIdleActions w) (videoUrl w) (isAnimating w)
    (animationStatus w) (videoMounted w) (srcObject w) (liveStreams w) v
    (now w) (timers w) (nextHandle w) (drawn w) (calls w) (idleRuns w)
    (idleCleanup w) (actionTimeout w).

Definition set_now (v : Q) (w : World) : World :=
  Build_World
    (needsApiKey w) (audioLevel w) (status w) (isVisionSync w) (facingMode w)
    (error w) (lastMemory w) (textInput w) (astraResponse w)
    (latestResponseRef w) (isTyping w) (isBlinking w) (mouthShape w)
    (idleAction w) (enableIdleActions w) (videoUrl w) (isAnimating w)
    (animationStatus w) (videoMounted w) (srcObject w) (liveStreams w)
    (nextStream w) v (timers w) (nextHandle w) (drawn w) (calls w)
    (idleRuns w) (idleCleanup w) (actionTimeout w).

Definition set_timers (v : list Timer) (w : World) : World :=
  Build_World
    (needsApiKey w) (audioLevel w) (status w) (isVisionSync w) (facingMode w)
    (error w) (lastMemory w) (textInput w) (astraResponse w)
    (latestResponseRef w) (isTyping w) (isBlinking w) (mouthShape w)
    (idleAction w) (enableIdleActions w) (videoUrl w) (isAnimating w)
    (animationStatus w) (videoMounted w) (srcObject w) (liveStreams w)
    (nextStream w) (now w) v (nextHandle w) (drawn w) (calls w) (idleRuns w)
    (idleCleanup w) (actionTimeout w).

Definition set_nextHandle (v : nat) (w : World) : World :=
  Build_World
    (needsApiKey w) (audioLevel w) (status w) (isVisionSync w) (facingMode w)
    (error w) (lastMemory w) (textInput w) (astraResponse w)
    (latestResponseRef w) (isTyping w) (isBlinking w) (mouthShape w)
    (idleAction w) (enableIdleActions w) (videoUrl w) (isAnimating w)
    (animationStatus w) (videoMounted w) (srcObject w) (liveStreams w)
    (nextStream w) (now w) (timers w) v (drawn w) (calls w) (idleRuns w)
    (idleCleanup w) (actionTimeout w).

Definition set_drawn (v : nat) (w : World) : World :=
  Build_World
    (needsApiKey w) (audioLevel w) (status w) (isVisionSync w) (facingMode w)
    (error w) (lastMemory w) (textInput w) (astraResponse w)
    (latestResponseRef w) (isTyping w) (isBlinking w) (mouthShape w)
    (idleAction w) (enableIdleActions w) (videoUrl w) (isAnimating w)
    (animationStatus w) (videoMounted w) (srcObject w) (liveStreams w)
    (nextStream w) (now w) (timers w) (nextHandle w) v (calls w) (idleRuns w)
    (idleCleanup w) (actionTimeout w).

Definition set_calls (v : list ServiceCall) (w : World) : World :=
  Build_World
    (needsApiKey w) (audioLevel w) (status w) (isVisionSync w) (facingMode w)
    (error w) (lastMemory w) (textInput w) (astraResponse w)
    (latestResponseRef w) (isTyping w) (isBlinking w) (mouthShape w)
    (idleAction w) (enableIdleActions w) (videoUrl w) (isAnimating w)
    (animationStatus w) (videoMounted w) (srcObject w) (liveStreams w)
    (nextStream w) (now w) (timers w) (nextHandle w) (drawn w) v (idleRuns w)
    (idleCleanup w) (actionTimeout w).

Definition set_idleRuns (v : nat) (w : World) : World :=
  Build_World
    (needsApiKey w) (audioLevel w) (status w) (isVisionSync w) (facingMode w)
    (error w) (lastMemory w) (textInput w) (astraResponse w)
    (latestResponseRef w) (isTyping w) (isBlinking w) (mouthShape w)
    (idleAction w) (enableIdleActions w) (videoUrl w) (isAnimating w)
    (animationStatus w) (videoMounted w) (srcObject w) (liveStreams w)
    (nextStream w) (now w) (timers w) (nextHandle w) (drawn w) (calls w) v
    (idleCleanup w) (actionTimeout w).

Definition set_idleCleanup (v : option nat) (w : World) : World :=
  Build_World
    (needsApiKey w) (audioLevel w) (status w) (isVisionSync w) (facingMode w)
    (error w) (lastMemory w) (textInput w) (astraResponse w)
    (latestResponseRef w) (isTyping w) (isBlinking w) (mouthShape w)
    (idleAction w) (enableIdleActions w) (videoUrl w) (isAnimating w)
    (animationStatus w) (videoMounted w) (srcObject w) (liveStreams w)
    (nextStream w) (now w) (timers w) (nextHandle w) (drawn w) (calls w)
    (idleRuns w) v (actionTimeout w).

Definition set_actionTimeout (v : list (nat * nat)) (w : World) : World :=
  Build_World
    (needsApiKey w) (audioLevel w) (status w) (isVisionSync w) (facingMode w)
    (error w) (lastMemory w) (textInput w) (astraResponse w)
    (latestResponseRef w) (isTyping w) (isBlinking w) (mouthShape w)
    (idleAction w) (enableIdleActions w) (videoUrl w) (isAnimating w)
    (animationStatus w) (videoMounted w) (srcObject w) (liveStreams w)
    (nextStream w) (now w) (timers w) (nextHandle w) (drawn w) (calls w)
    (idleRuns w) (idleCleanup w) v.

(** ** A state monad over the page *)

Definition Eff (A : Type) : Type := World -> A * World.

Definition ret {A : Type} (a : A) : Eff A := fun w => (a, w).

Definition bind {A B : Type} (m : Eff A) (k : A -> Eff B) : Eff B :=
  fun w => k (fst (m w)) (snd (m w)).

Definition exec {A : Type} (m : Eff A) (w : World) : World := snd (m w).

Definition gets {A : Type} (f : World -> A) : Eff A := fun w => (f w, w).

Definition modify (f : World -> World) : Eff unit := fun w => (tt, f w).

Definition when (b : bool) (m : Eff unit) : Eff unit :=
  if b then m else ret tt.

Declare Scope eff_scope.
Delimit Scope eff_scope with eff.
Bind Scope eff_scope with Eff.

Notation "x <- m ;; k" := (bind m (fun x => k))
  (at level 61, m at next level, right associativity) : eff_scope.
Notation "m ;; k" := (bind m (fun _ => k))
  (at level 61, right associativity) : eff_scope.

Local Open Scope eff_scope.

(** [arr.forEach(f)]. *)
Fixpoint forEach {A : Type} (l : list A) (f : A -> Eff unit) : Eff unit :=
  match l with
  | [] => ret tt
  | x :: l' => f x ;; forEach l' f
  end.

(** The setters returned by [useState]. *)
Definition setNeedsApiKey (v : bool) : Eff unit := modify (set_needsApiKey v).
Definition setAudioLevel (v : Q) : Eff unit := modify (set_audioLevel v).
Definition setStatus (v : Status) : Eff unit := modify (set_status v).
Definition setIsVisionSync (v : bool) : Eff unit := modify (set_isVisionSync v).
Definition setFacingMode (v : FacingMode) : Eff unit := modify (set_facingMode v).
Definition setError (v : option jsstring) : Eff unit := modify (set_error v).
Definition setLastMemory (v : option jsstring) : Eff unit := modify (set_lastMemory v).
Definition setTextInput (v : jsstring) : Eff unit := modify (set_textInput v).
Definition setAstraResponse (v : option jsstring) : Eff unit := modify (set_astraResponse v).
Definition setIsTyping (v : bool) : Eff unit := modify (set_isTyping v).
Definition setIsBlinking (v : bool) : Eff unit := modify (set_isBlinking v).
Definition setMouthShape (v : MouthShape) : Eff unit := modify (set_mouthShape v).
Definition setIdleAction (v : IdleAction) : Eff unit := modify (set_idleAction v).
Definition setEnableIdleActions (v : bool) : Eff unit := modify (set_enableIdleActions v).
Definition setVideoUrl (v : option jsstring) : Eff unit := modify (set_videoUrl v).
Definition setIsAnimating (v : bool) : Eff unit := modify (set_isAnimating v).
Definition setAnimationStatus (v : jsstring) : Eff unit := modify (set_animationStatus v).

(** [const isConnected = status !== 'idle']. *)
Definition isConnected (w : World) : bool := negb (Status_eqb (status w) Idle).

(** A call on [liveService.current]. *)
Definition call (c : ServiceCall) : Eff unit :=
  modify (fun w => set_calls (calls w ++ [c]) w).

(** ** Timers *)

Definition setTimeout (cb : TimerCallback) (delay : Q) : Eff nat :=
  fun w =>
    (nextHandle w,
     set_nextHandle (S (nextHandle w))
       (set_timers
          (timers w ++
           [{| handle := nextHandle w; due := now w + delay; callback := cb |}])
          w)).

Definition cancel (h : nat) (ts : list Timer) : list Timer :=
  filter (fun t => negb (Nat.eqb (handle t) h)) ts.

Definition clearTimeout (h : nat) : Eff unit :=
  modify (fun w => set_timers (cancel h (timers w)) w).

(** The pending timer that runs next: the least due time, and among equal
    due times the one set first. *)
Fixpoint earliest (ts : list Timer) : option Timer :=
  match ts with
  | [] => None
  | t :: ts' =>
      match earliest ts' with
      | None => Some t
      | Some u => if Qle_bool (due t) (due u) then Some t else Some u
      end
  end.

(** [a > b] on numbers. *)
Definition Qgt_bool (a b : Q) : bool := negb (Qle_bool a b).

(** ** Camera streams *)

(** [stream.getTracks().forEach(t => t.stop())]. *)
Definition stopTracks (s : nat) : Eff unit :=
  modify (fun w =>
    set_liveStreams (filter (fun x => negb (Nat.eqb x s)) (liveStreams w)) w).

(** A granted [getUserMedia]: a new stream, its tracks running. *)
Definition getUserMedia : Eff nat :=
  fun w =>
    (nextStream w,
     set_nextStream (S (nextStream w))
       (set_liveStreams (nextStream w :: liveStreams w) w)).

Inductive CameraOutcome := CameraGranted | CameraDenied.

(** [if (videoRef.current && videoRef.current.srcObject) ...stop()]. *)
Definition stopBoundTracks : Eff unit :=
  m <- gets videoMounted ;;
  s <- gets srcObject ;;
  match m, s with
  | true, Some stream => stopTracks stream
  | _, _ => ret tt
  end.

Definition startCamera (mode : FacingMode) (o : CameraOutcome) : Eff unit :=
  stopBoundTracks ;;
  match o with
  | CameraGranted =>
      stream <- getUserMedia ;;
      m <- gets videoMounted ;;
      when m
        (modify (set_srcObject (Some stream)) ;;
         setIsVisionSync true ;;
         setFacingMode mode ;;
         c <- gets isConnected ;;
         when c (_ <- setTimeout VisionAttach 500 ;; ret tt))
  | CameraDenied =>
      setError
        (Some (js "Neural lens access denied. Please check camera permissions.")) ;;
      setIsVisionSync false
  end.

(** The two parts of [startCamera] around its [await]. The first stops the
    tracks of the bound stream and asks for the camera; the second runs when
    the request settles, with the handler's argument [mode] and the
    [isConnected] of the render the handler was created in. *)
Definition startCameraRequest : Eff unit := stopBoundTracks.

Definition startCameraSettle (mode : FacingMode) (connected : bool)
  (o : CameraOutcome) : Eff unit :=
  match o with
  | CameraGranted =>
      stream <- getUserMedia ;;
      m <- gets videoMounted ;;
      when m
        (modify (set_srcObject (Some stream)) ;;
         setIsVisionSync true ;;
         setFacingMode mode ;;
         when connected (_ <- setTimeout VisionAttach 500 ;; ret tt))
  | CameraDenied =>
      setError
        (Some (js "Neural lens access denied. Please check camera permissions.")) ;;
      setIsVisionSync false
  end.

Definition toggleVision (o : CameraOutcome) : Eff unit :=
  v <- gets isVisionSync ;;
  if v then
    setIsVisionSync false ;;
    call (SvcSetVision false) ;;
    m <- gets videoMounted ;;
    s <- gets srcObject ;;
    match m, s with
    | true, Some stream =>
        stopTracks stream ;; modify (set_srcObject None)
    | _, _ => ret tt
    end
  else
    mode <- gets facingMode ;;
    startCamera mode o.

Definition switchCamera (o : CameraOutcome) : Eff unit :=
  mode <- gets facingMode ;;
  let nextMode := match mode with User => Environment | Environment => User end in
  startCamera nextMode o.

(** ** API key *)

Inductive AuthOutcome := HasKey | NoKey | AuthThrows.

(** What [checkAuth], started on mount, does to the page once
    [hasSelectedApiKey] settles. The flags [isAuthChecking] and
    [memoryLoaded] it also sets are not part of the page. *)
Definition checkAuth (o : AuthOutcome) : Eff unit :=
  match o with
  | NoKey => setNeedsApiKey true
  | HasKey | AuthThrows => ret tt
  end.

(** The [onSelect] of the key prompt, which is on display while
    [needsApiKey] is set. *)
Definition onSelect : Eff unit := setNeedsApiKey false.

(** ** Session controller *)

Inductive StartOutcome :=
  | StartOk
  | StartThrows (msg : jsstring). (* err?.message || String(err) *)

Definition onAudioLevel (level : Q) : Eff unit := setAudioLevel level.

Definition onStatusChange (s : Status) : Eff unit :=
  setStatus s ;;
  when (Status_eqb s Speaking) (setIsTyping true).

Definition onError (msg : jsstring) : Eff unit :=
  setError (Some msg) ;;
  setStatus Idle ;;
  setIsTyping false ;;
  when (includes (js "Model access denied") msg
        || includes (js "Quota exhausted") msg)
    (setNeedsApiKey true).

Definition onMemoryUpdate (fact : jsstring) : Eff unit :=
  setLastMemory (Some fact) ;;
  _ <- setTimeout MemoryClear 8000 ;;
  ret tt.

Definition onTranscription (text : jsstring) : Eff unit :=
  setAstraResponse (Some text) ;;
  modify (set_latestResponseRef text) ;;
  when (Nat.ltb 0 (List.length text)) (setIsTyping false).

Definition onTurnComplete : Eff unit :=
  setStatus Idle ;;
  setIsTyping false ;;
  modify (set_latestResponseRef []).

Definition toggleSession (o : StartOutcome) : Eff unit :=
  st <- gets status ;;
  if negb (Status_eqb st Idle) then
    call SvcStop ;;
    setStatus Idle ;;
    setAstraResponse None ;;
    setIsTyping false ;;
    setAudioLevel 0
  else
    setError None ;;
    v <- gets isVisionSync ;;
    m <- gets videoMounted ;;
    call (SvcStart (v && m)) ;;
    match o with
    | StartOk => ret tt
    | StartThrows msg =>
        (if includes (js "Permission denied") msg
            || includes (js "NotAllowedError") msg
         then
           setError (Some (js "Microphone access is required for the Neural Bridge. Please check your browser permissions."))
         else
           setError (Some (js "Neural Bridge connection failed: " ++ msg)%list)) ;;
        setStatus Idle
    end.

Inductive SendOutcome := SendOk | SendThrows.

Definition handleSendMessage (o : SendOutcome) : Eff unit :=
  text <- gets textInput ;;
  c <- gets isConnected ;;
  if negb (nonEmpty (trim text)) || negb c then ret tt
  else
    setIsTyping true ;;
    setAstraResponse None ;;
    call (SvcSend text) ;;
    match o with
    | SendOk => setTextInput []
    | SendThrows => setIsTyping false
    end.

(** ** Animation commissioning *)

(** What the [try] block of [handleAnimate] can throw: a value whose
    [message] can be read (a string or [undefined]), or [null]/[undefined],
    on which reading [err.message] throws inside the [catch] block. *)
Inductive Thrown :=
  | ThrownValue (message : option jsstring)
  | ThrownNullish.

Inductive AnimateOutcome :=
  | AnimateOk (url : jsstring)
  | AnimateThrows (err : Thrown).

Definition messageIs (message : option jsstring) (s : string) : bool :=
  option_jsstring_eqb message (Some (js s)).

(** [progress] are the messages the collaborator reports before it settles. *)
Definition handleAnimate (progress : list jsstring) (o : AnimateOutcome)
  : Eff unit :=
  busy <- gets isAnimating ;;
  if busy then ret tt
  else
    setIsAnimating true ;;
    setError None ;;
    forEach progress setAnimationStatus ;;
    match o with
    | AnimateOk url => setVideoUrl (Some url)
    | AnimateThrows ThrownNullish => ret tt
    | AnimateThrows (ThrownValue message) =>
        if messageIs message "API_KEY_PERMISSION_DENIED"
           || messageIs message "API_KEY_EXPIRED"
        then setNeedsApiKey true
        else if messageIs message "SERVICE_UNAVAILABLE"
        then
          setError (Some (js "Neural animation engine is temporarily overloaded. Please try again in a few minutes."))
        else if messageIs message "QUOTA_EXHAUSTED"
        then
          setError (Some (js "Neural Quota Exhausted: You have reached your API limit. Please switch to a Paid API key or wait for the quota to reset.")) ;;
          setNeedsApiKey true
        else
          setError (Some (js "Neural animation failed. Please ensure you are using a Paid API key."))
    end ;;
    setIsAnimating false ;;
    setAnimationStatus [].

(** ** Lip-sync character classes *)

Definition vowels : list jsstring :=
  [js "a"; js "e"; js "o"; [0x622]; [0x627]; [0x648]; js "u"; js "i"; [0x6cc]]%N.

Definition plosives : list jsstring :=
  [js "p"; js "b"; js "m"; js "t"; js "d";
   [0x67e]; [0x628]; [0x645]; [0x62a]; [0x62f]]%N.

Definition fricatives : list jsstring :=
  [js "f"; js "v"; js "s"; js "z"; [0x641]; [0x648]; [0x633]; [0x632]]%N.

(** The string behind a truthy [string | null]. *)
Definition unwrap (s : option jsstring) : jsstring :=
  match s with
  | Some t => t
  | None => []
  end.

Definition actions : list IdleAction := [Glance; Tilt; Shift].

Section App.

(** The draws of [Math.random] and [String.prototype.toLowerCase]. *)
Variable random : nat -> Q.
Variable toLowerCase : jsstring -> jsstring.

Definition mathRandom : Eff Q :=
  fun w => (random (drawn w), set_drawn (S (drawn w)) w).

(** *** Blinking

    The variable [blinkTimeout], which [scheduleBlink] assigns, is read only
    by the cleanup that runs when the component unmounts; unmounting is not
    part of the model. *)

Definition scheduleBlink : Eff unit :=
  r <- mathRandom ;;
  let isDoubleBlink := Qgt_bool r (rnd 0.8) in
  delay <- (if isDoubleBlink then ret 200%Q
            else r' <- mathRandom ;; ret (rnd (rnd (r' * 5000) + 2500))%Q) ;;
  _ <- setTimeout BlinkOuter delay ;;
  ret tt.

Definition blinkOuter : Eff unit :=
  setIsBlinking true ;;
  r <- mathRandom ;;
  let blinkDuration := rnd (rnd (r * 50) + 100) in
  _ <- setTimeout BlinkInner blinkDuration ;;
  ret tt.

Definition blinkInner : Eff unit :=
  setIsBlinking false ;;
  scheduleBlink.

(** *** Lip sync *)

Definition lipSyncEffect : Eff unit :=
  st <- gets status ;;
  resp <- gets astraResponse ;;
  if negb (Status_eqb st Speaking) || negb (truthy resp) then
    setMouthShape {| scale := 1; skew := 0 |}
  else
    let lastChar := toLowerCase (sliceLast (trim (unwrap resp))) in
    if arrayIncludes vowels lastChar then
      r <- mathRandom ;;
      setMouthShape {| scale := 1.2 + r * 0.1; skew := 1.5 |}
    else if arrayIncludes plosives lastChar then
      setMouthShape {| scale := 0.85; skew := -0.5 |}
    else if arrayIncludes fricatives lastChar then
      setMouthShape {| scale := 1.05; skew := 0.8 |}
    else
      setMouthShape {| scale := 1.1; skew := 0.3 |}.

(** *** Idle actions *)

Definition scheduleAction (k : nat) : Eff unit :=
  r <- mathRandom ;;
  let delay := rnd (rnd (r * 8000) + 4000) in
  h <- setTimeout (IdleOuter k) delay ;;
  modify (fun w => set_actionTimeout ((k, h) :: actionTimeout w) w).

Definition idleOuter (k : nat) : Eff unit :=
  r <- mathRandom ;;
  let randomAction := nth (Z.to_nat (Qfloor (rnd (r * 3)))) actions ActNone in
  setIdleAction randomAction ;;
  r' <- mathRandom ;;
  _ <- setTimeout (IdleInner k) (rnd (2000 + rnd (r' * 1000))) ;;
  ret tt.

Definition idleInner (k : nat) : Eff unit :=
  setIdleAction ActNone ;;
  scheduleAction k.

(** The variable [actionTimeout] of run [k]. *)
Fixpoint actionTimeoutOf (k : nat) (vars : list (nat * nat)) : option nat :=
  match vars with
  | [] => None
  | (k', h) :: vars' => if Nat.eqb k' k then Some h else actionTimeoutOf k vars'
  end.

Definition idleEffect : Eff unit :=
  st <- gets status ;;
  enabled <- gets enableIdleActions ;;
  if negb (Status_eqb st Idle) || negb enabled then
    setIdleAction ActNone ;;
    modify (set_idleCleanup None)
  else
    k <- gets idleRuns ;;
    modify (set_idleRuns (S k)) ;;
    scheduleAction k ;;
    modify (set_idleCleanup (Some k)).

(** The function the last run of the idle effect returned, if any:
    [() => clearTimeout(actionTimeout)]. *)
Definition idleEffectCleanup : Eff unit :=
  c <- gets idleCleanup ;;
  vars <- gets actionTimeout ;;
  match c with
  | None => ret tt
  | Some k =>
      match actionTimeoutOf k vars with
      | Some h => clearTimeout h
      | None => ret tt
      end
  end.

(** *** Rendering *)

(** After a render React runs the effects whose dependencies changed since
    the previous render: first their cleanups, then their bodies in order of
    declaration. Lip sync depends on [astraResponse, status], idle actions
    on [status] alone; blinking has no dependencies and runs on mount only. *)
Definition commit (prev : World) : Eff unit :=
  st <- gets status ;;
  resp <- gets astraResponse ;;
  let statusChanged := negb (Status_eqb st (status prev)) in
  let responseChanged := negb (option_jsstring_eqb resp (astraResponse prev)) in
  when statusChanged idleEffectCleanup ;;
  when (responseChanged || statusChanged) lipSyncEffect ;;
  when statusChanged idleEffect.

Definition mount : Eff unit :=
  scheduleBlink ;;
  lipSyncEffect ;;
  idleEffect.

Definition runCallback (cb : TimerCallback) : Eff unit :=
  match cb with
  | BlinkOuter => blinkOuter
  | BlinkInner => blinkInner
  | IdleOuter k => idleOuter k
  | IdleInner k => idleInner k
  | MemoryClear => setLastMemory None
  | VisionAttach => m <- gets videoMounted ;; call (SvcSetVision m)
  end.

(** *** Events

    What the user and the collaborators do to the page. A click on the
    vision or the camera button is the whole of its handler, the camera's
    answer included. [AuthChecked] is the auth check started on mount
    settling, [SelectKey] the [onSelect] of the key prompt. *)

Inductive Event :=
  | ClickSession (o : StartOutcome)
  | AudioLevel (level : Q)
  | StatusChange (s : Status)
  | ServiceError (msg : jsstring)
  | MemoryUpdate (fact : jsstring)
  | Transcription (text : jsstring)
  | TurnComplete
  | TypeText (text : jsstring)
  | ClickSend (o : SendOutcome)
  | ClickVision (o : CameraOutcome)
  | ClickSwitchCamera (o : CameraOutcome)
  | ClickAnimate (progress : list jsstring) (o : AnimateOutcome)
  | EnableIdleActions (v : bool)
  | AuthChecked (o : AuthOutcome)
  | SelectKey
  | TimerDue
  | Wait (d : Q).

(** The handler an event from the user or the collaborator runs. *)
Definition handler (e : Event) : Eff unit :=
  match e with
  | ClickSession o => toggleSession o
  | AudioLevel level => onAudioLevel level
  | StatusChange s => onStatusChange s
  | ServiceError msg => onError msg
  | MemoryUpdate fact => onMemoryUpdate fact
  | Transcription text => onTranscription text
  | TurnComplete => onTurnComplete
  | TypeText text => setTextInput text
  | ClickSend o => handleSendMessage o
  | ClickVision o => toggleVision o
  | ClickSwitchCamera o => switchCamera o
  | ClickAnimate progress o => handleAnimate progress o
  | EnableIdleActions v => setEnableIdleActions v
  | AuthChecked o => checkAuth o
  | SelectKey => onSelect
  | TimerDue => ret tt
  | Wait _ => ret tt
  end.

(** One event, then the render it causes. [TimerDue] runs the earliest
    pending timer at its due time; [Wait d] lets [d] ms pass and is possible
    only while no timer is due before that. *)
Definition step (e : Event) (w : World) : option World :=
  match e with
  | TimerDue =>
      match earliest (timers w) with
      | None => None
      | Some t =>
          let w1 := set_timers (cancel (handle t) (timers w)) w in
          let w2 := if Qle_bool (due t) (now w1) then w1 else set_now (due t) w1 in
          Some (exec (commit w2) (exec (runCallback (callback t)) w2))
      end
  | Wait d =>
      if Qle_bool 0 d
         && forallb (fun t => Qle_bool (now w + d) (due t)) (timers w)
      then Some (set_now (now w + d) w)
      else None
  | _ => Some (exec (commit w) (exec (handler e) w))
  end.

Fixpoint run (es : list Event) (w : World) : option World :=
  match es with
  | [] => Some w
  | e :: es' =>
      match step e w with
      | Some w' => run es' w'
      | None => None
      end
  end.

End App.

(** The page once the main view is rendered: nothing said yet, the video
    element present without a stream, no timer set. [mount] then runs the
    effects. *)
Definition initial : World :=
  {| needsApiKey := false;
     audioLevel := 0;
     status := Idle;
     isVisionSync := false;
     facingMode := User;
     error := None;
     lastMemory := None;
     textInput := [];
     astraResponse := None;
     latestResponseRef := [];
     isTyping := false;
     isBlinking := false;
     mouthShape := {| scale := 1; skew := 0 |};
     idleAction := ActNone;
     enableIdleActions := true;
     videoUrl := None;
     isAnimating := false;
     animationStatus := [];
     videoMounted := true;
     srcObject := None;
     liveStreams := [];
     nextStream := 0;
     now := 0;
     timers := [];
     nextHandle := 0;
     drawn := 0;
     calls := [];
     idleRuns := 0;
     idleCleanup := None;
     actionTimeout := [] |}.

Definition mounted (random : nat -> Q) (toLowerCase : jsstring -> jsstring)
  : World :=
  exec (mount random toLowerCase) initial.

(** * Vocabulary of the properties *)

(** ** Effects *)

(** [m] leaves the view [f] of the page as it is. *)
Definition preserves {V A : Type} (f : World -> V) (m : Eff A) : Prop :=
  forall w, f (snd (m w)) = f w.

(** [m] keeps the invariant [I]. *)
Definition keeps {A : Type} (I : World -> Prop) (m : Eff A) : Prop :=
  forall w, I w -> I (snd (m w)).

(** ** Views and invariants of the page *)

(** What the effects of a render leave alone. *)
Definition controller (w : World) :=
  (needsApiKey w, audioLevel w, status w, isVisionSync w, facingMode w,
   error w, lastMemory w, textInput w, astraResponse w, latestResponseRef w,
   isTyping w, isBlinking w, enableIdleActions w, videoUrl w, isAnimating w,
   animationStatus w, videoMounted w, srcObject w, liveStreams w,
   nextStream w, now w, calls w).

(** What the camera invariant reads. *)
Definition camera (w : World) := (videoMounted w, srcObject w, liveStreams w).

(** The video element is present and the only stream whose tracks run, if
    any, is the one bound to it. *)
Definition CameraInv (w : World) : Prop :=
  videoMounted w = true /\
  (liveStreams w = [] \/
   exists s, liveStreams w = [s] /\ srcObject w = Some s).

(** What the timer invariant reads. *)
Definition queue (w : World) := (timers w, nextHandle w, actionTimeout w).

Definition isBlink (cb : TimerCallback) : bool :=
  match cb with
  | BlinkOuter | BlinkInner => true
  | _ => false
  end.

(** The pending timers of the blink loop. *)
Definition blinkTimers (w : World) : list Timer :=
  filter (fun t => isBlink (callback t)) (timers w).

(** Timer handles are distinct and below the next one to hand out, and no
    [actionTimeout] variable holds the handle of a blink timer. *)
Definition QueueOk (w : World) : Prop :=
  NoDup (map handle (timers w)) /\
  (forall t, In t (timers w) -> (handle t < nextHandle w)%nat) /\
  (forall k h, In (k, h) (actionTimeout w) ->
     (h < nextHandle w)%nat /\
     forall t, In t (timers w) -> handle t = h -> isBlink (callback t) = false).

(** The queue is in order and holds [n] timers of the blink loop. *)
Definition Blinks (n : nat) (w : World) : Prop :=
  QueueOk w /\ List.length (blinkTimers w) = n.

(** What the lip-sync invariant reads. *)
Definition lip (w : World) := (mouthShape w, status w, astraResponse w).

(** Follows the specification: the mouth shape as a function of the session
    state, the response text and the jitter of the vowel class. *)
Definition mouthOf (toLowerCase : jsstring -> jsstring) (st : Status)
  (resp : option jsstring) (jitter : Q) : MouthShape :=
  if negb (Status_eqb st Speaking) || negb (truthy resp)
  then {| scale := 1; skew := 0 |}
  else
    let c := toLowerCase (sliceLast (trim (unwrap resp))) in
    if arrayIncludes vowels c
    then {| scale := 1.2 + jitter * 0.1; skew := 1.5 |}
    else if arrayIncludes plosives c then {| scale := 0.85; skew := -0.5 |}
    else if arrayIncludes fricatives c then {| scale := 1.05; skew := 0.8 |}
    else {| scale := 1.1; skew := 0.3 |}.

(** The mouth shows the shape derived from the current state and text. *)
Definition LipInv (random : nat -> Q) (toLowerCase : jsstring -> jsstring)
  (w : World) : Prop :=
  exists n,
    mouthShape w = mouthOf toLowerCase (status w) (astraResponse w) (random n).

(** The dependencies of the effects that run again after the mount. *)
Definition renderDeps (w : World) := (status w, astraResponse w).

(** The letter waw, U+0648. *)
Definition waw : N := 0x648.

(** ** A sample page

    ASCII lower-casing, which is what [toLowerCase] does on texts made of
    Basic Latin and of letters without case, and a sample of draws, each of
    them a double. *)
Definition lowerAscii (s : jsstring) : jsstring :=
  map (fun c => if (N.leb 65 c && N.leb c 90)%bool then (c + 32)%N else c) s.

Definition demoRandom (n : nat) : Q :=
  match n with
  | 0%nat => 0.5
  | 1%nat => 0.5
  | 2%nat => 0
  | 3%nat => rnd 0.4
  | _ => 0.5
  end.

Definition demoPage : World := mounted demoRandom lowerAscii.

(** The largest doubles below 1/3 and 2/3: 0.3333333333333333 and
    0.6666666666666666. *)
Definition belowThird : Q := 6004799503160661 # 18014398509481984.
Definition belowTwoThirds : Q := 6004799503160661 # 9007199254740992.

(** The largest draw of a generator that returns multiples of [2^-52],
    0.9999999999999998, and the largest double below 1,
    0.9999999999999999. *)
Definition lastDraw : Q := 4503599627370495 # 4503599627370496.
Definition lastDouble : Q := 9007199254740991 # 9007199254740992.

Definition lastRandom (n : nat) : Q := lastDraw.

(** The vision button clicked twice on the sample page before the camera
    answers, and both requests then granted. Each click finds vision off
    and runs [startCamera] with the facing mode and the [isConnected] of the
    sample page. *)
Definition twoRequests : World :=
  exec startCameraRequest (exec startCameraRequest demoPage).

Definition twoGrants : World :=
  exec (startCameraSettle (facingMode demoPage) (isConnected demoPage)
          CameraGranted)
    (exec (startCameraSettle (facingMode demoPage) (isConnected demoPage)
             CameraGranted)
       twoRequests).

(** ** The view

    What the component renders from the page, besides the state cells
    themselves. *)

(** The value the distortion effect writes to the style property
    [--distortion-amount]. *)
Definition distortionValue (w : World) : Q :=
  if Status_eqb (status w) Speaking && Qgt_bool (audioLevel w) (rnd 0.1)
  then rnd (20 + rnd (audioLevel w * 100))
  else if Status_eqb (status w) Listening then 10 else 0.

(** The [animate] prop of the avatar image. [rotate], [x] and [y] are
    keyframe arrays; the [filter_] fields are the numbers interpolated into
    the filter string: brightness, contrast, saturate, the blur radius and
    the alpha of the drop shadow, and the brightness of the blink. The
    fields are the expressions of the source, not rounded to doubles. *)
Record AvatarPose := {
  pose_scale : Q;
  pose_scaleX : Q;
  pose_scaleY : Q;
  pose_rotate : list Q;
  pose_skewX : Q;
  pose_skewY : Q;
  pose_x : list Q;
  pose_y : list Q;
  filter_brightness : Q;
  filter_contrast : Q;
  filter_saturate : Q;
  filter_shadowBlur : Q;
  filter_shadowAlpha : Q;
  filter_blink : Q
}.

Definition avatarPose (w : World) : AvatarPose :=
  let speaking := Status_eqb (status w) Speaking in
  let level := audioLevel w in
  {| pose_scale :=
       if speaking
       then 1.1 + (if Qgt_bool level 0.1 then level * 0.15 else 0)
       else 1.1;
     pose_scaleX := if speaking then 1 - level * 0.03 else 1;
     pose_scaleY :=
       if speaking then (1 + level * 0.12) * scale (mouthShape w) else 1;
     pose_rotate :=
       if speaking then [0; -1.5; 1.5; 0]
       else match idleAction w with
            | Tilt => [0; 1.5; -1.5; 0]
            | _ => [0; -0.4; 0.4; 0]
            end;
     pose_skewX :=
       if speaking then level * 5
       else match idleAction w with
            | Shift => 1.2
            | _ => 0
            end;
     pose_skewY :=
       if speaking then level * 2 + skew (mouthShape w)
       else match idleAction w with
            | Glance => 0.6
            | _ => 0
            end;
     pose_x :=
       if speaking then [0; -2; 2; 0]
       else match idleAction w with
            | Shift => [0; 3; -3; 0]
            | _ => [0; -0.6; 0.6; 0]
            end;
     pose_y := if speaking then [0; -2.5; 2.5; 0] else [0; -3; 3; 0];
     filter_brightness :=
       if Status_eqb (status w) Idle then 0.7 else 1.1 + level * 0.35;
     filter_contrast := 1.1 + level * 0.2;
     filter_saturate := 1.1 + level * 0.25;
     filter_shadowBlur := level * 25;
     filter_shadowAlpha := level * 0.6;
     filter_blink := if isBlinking w then 0.2 else 1 |}.

(** ** More invariants *)

(** What the transcript invariant reads. *)
Definition transcript (w : World) := (astraResponse w, latestResponseRef w).

(** The text on display and the last-response ref never disagree: either no
    text is on display, or the ref was reset, or they are the same text. *)
Definition TranscriptInv (w : World) : Prop :=
  astraResponse w = None \/ latestResponseRef w = [] \/
  astraResponse w = Some (latestResponseRef w).

(** Every text sent to the collaborator since the log [old] has something
    other than white space in it. *)
Definition SendsInv (old : list ServiceCall) (w : World) : Prop :=
  forall text, In (SvcSend text) (calls w) ->
    In (SvcSend text) old \/ forallb isWhiteSpace text = false.

(** [facingMode === 'user' ? 'environment' : 'user']. *)
Definition otherCamera (mode : FacingMode) : FacingMode :=
  match mode with
  | User => Environment
  | Environment => User
  end.

(** * Properties *)

(** ** Strings *)

Lemma jsstring_eqb_eq (a b : jsstring) : jsstring_eqb a b = true <-> a = b.
Proof.
  revert b; induction a as [|x a IH]; intros [|y b]; simpl;
    try (split; [discriminate | congruence]); try tauto.
  rewrite andb_true_iff, N.eqb_eq, IH.
  split; [intros [-> ->]; reflexivity | intros H; injection H; auto].
Qed.

Lemma jsstring_eqb_refl (a : jsstring) : jsstring_eqb a a = true.
Proof. apply jsstring_eqb_eq; reflexivity. Qed.

Lemma option_jsstring_eqb_refl (a : option jsstring) :
  option_jsstring_eqb a a = true.
Proof. destruct a; simpl; auto using jsstring_eqb_refl. Qed.

Lemma Status_eqb_eq (a b : Status) : Status_eqb a b = true <-> a = b.
Proof. destruct a, b; simpl; split; congruence. Qed.

Lemma Status_eqb_refl (s : Status) : Status_eqb s s = true.
Proof. destruct s; reflexivity. Qed.


Lemma trimStart_nil (s : jsstring) :
  trimStart s = [] <-> forallb isWhiteSpace s = true.
Proof.
  induction s as [|c s IH]; simpl; [tauto|].
  destruct (isWhiteSpace c); simpl; [exact IH | split; discriminate].
Qed.

Lemma trimStart_head (s : jsstring) (c : N) (r : jsstring) :
  trimStart s = c :: r -> isWhiteSpace c = false.
Proof.
  induction s as [|x s IH]; simpl; [discriminate|].
  destruct (isWhiteSpace x) eqn:E; [exact IH|].
  intros H; injection H as -> _; exact E.
Qed.

Lemma trimStart_forallb (s : jsstring) :
  forallb isWhiteSpace (trimStart s) = true -> trimStart s = [].
Proof.
  destruct (trimStart s) as [|c r] eqn:E; [reflexivity|].
  apply trimStart_head in E; simpl; rewrite E; discriminate.
Qed.

Lemma forallb_rev {A : Type} (f : A -> bool) (l : list A) :
  forallb f (rev l) = forallb f l.
Proof.
  induction l as [|x l IH]; simpl; [reflexivity|].
  rewrite forallb_app, IH; simpl; rewrite andb_true_r; apply andb_comm.
Qed.

(** A text trims to nothing exactly when it is blank or all white space. *)
Lemma trim_nil (s : jsstring) :
  trim s = [] <-> forallb isWhiteSpace s = true.
Proof.
  unfold trim, trimEnd; split.
  - intros H.
    assert (H' : trimStart (rev (trimStart s)) = []).
    { destruct (trimStart (rev (trimStart s))) as [|c r]; [reflexivity|].
      exfalso; simpl in H; destruct (rev r); discriminate. }
    apply trimStart_nil in H'; rewrite forallb_rev in H'.
    apply trimStart_nil, trimStart_forallb, H'.
  - intros H; apply trimStart_nil in H; rewrite H; reflexivity.
Qed.

Lemma trimStart_snoc (s : jsstring) (c : N) :
  isWhiteSpace c = false -> exists p, trimStart (s ++ [c]) = p ++ [c].
Proof.
  intros Hc; induction s as [|x s [p IH]]; simpl.
  - rewrite Hc; exists []; reflexivity.
  - destruct (isWhiteSpace x); [exists p; exact IH|].
    exists (x :: s); reflexivity.
Qed.

(** The last character of a trimmed text that ends in a character other
    than white space is that character. *)
Lemma sliceLast_trim_snoc (s : jsstring) (c : N) :
  isWhiteSpace c = false -> sliceLast (trim (s ++ [c])) = [c].
Proof.
  intros Hc; unfold trim, trimEnd, sliceLast.
  destruct (trimStart_snoc s c Hc) as [p ->].
  rewrite rev_involutive, rev_app_distr; simpl; rewrite Hc; reflexivity.
Qed.

(** ** Numbers *)

(** A closed comparison of numbers, by evaluation. *)
Ltac closed :=
  vm_compute; first [reflexivity | discriminate].

Section Doubles.
Local Open Scope Q_scope.

Lemma pow2_pos z : 0 < pow2 z.
Proof. apply Qpower_0_lt. reflexivity. Qed.

Lemma pow2_add a b : pow2 (a + b) == pow2 a * pow2 b.
Proof. apply Qpower_plus. discriminate. Qed.

Lemma pow2_le a b : (a <= b)%Z -> pow2 a <= pow2 b.
Proof. intros H. apply Qpower_le_compat_l; [exact H | discriminate]. Qed.

Lemma pow2_lt a b : (a < b)%Z -> pow2 a < pow2 b.
Proof. intros H. apply Qpower_lt_compat_l; [exact H | reflexivity]. Qed.

Lemma pow2_lt_inv a b : pow2 a < pow2 b -> (a < b)%Z.
Proof. intros H. apply (Qpower_lt_compat_l_inv 2); [exact H | reflexivity]. Qed.

Lemma pow2_Z n : (0 <= n)%Z -> pow2 n == inject_Z (2 ^ n).
Proof. intros H. unfold pow2. rewrite Zpower_Qpower by exact H. reflexivity. Qed.

Lemma pow2_split a b : pow2 a == pow2 (a - b) * pow2 b.
Proof. rewrite <- pow2_add. replace (a - b + b)%Z with a by lia. reflexivity. Qed.

Lemma Zlog2_bounds n : (0 < n)%Z -> inject_Z n < pow2 (Z.log2 n + 1) /\ pow2 (Z.log2 n) <= inject_Z n.
Proof.
  intros H. destruct (Z.log2_spec n H) as [L U].
  pose proof (Z.log2_nonneg n) as P.
  rewrite !pow2_Z by lia. rewrite <- Zlt_Qlt, <- Zle_Qle.
  replace (Z.succ (Z.log2 n)) with (Z.log2 n + 1)%Z in U by lia. tauto.
Qed.

Lemma ilog2_spec x : 0 < x -> pow2 (ilog2 x) <= x /\ x < pow2 (ilog2 x + 1).
Proof.
  intros Hx. unfold ilog2.
  destruct x as [n d]. assert (Hn : (0 < n)%Z).
  { unfold Qlt in Hx. simpl in Hx. lia. }
  cbn [Qnum Qden].
  destruct (Zlog2_bounds n Hn) as [Un Ln].
  destruct (Zlog2_bounds (Zpos d) eq_refl) as [Ud Ld].
  set (a := Z.log2 n) in *. set (b := Z.log2 (Zpos d)) in *.
  assert (Hq : n # d == inject_Z n / inject_Z (Zpos d)) by apply Qmake_Qdiv.
  assert (Hd : 0 < inject_Z (Zpos d)) by reflexivity.
  assert (Upper : n # d < pow2 (a - b + 1)).
  { rewrite Hq. apply Qlt_shift_div_r; [exact Hd|].
    apply Qlt_le_trans with (pow2 (a + 1)); [exact Un|].
    rewrite (pow2_split (a + 1) b). replace (a + 1 - b)%Z with (a - b + 1)%Z by lia.
    apply Qmult_le_l; [apply pow2_pos | exact Ld]. }
  assert (Lower : pow2 (a - b - 1) <= n # d).
  { rewrite Hq. apply Qle_shift_div_l; [exact Hd|].
    apply Qle_trans with (pow2 a); [|exact Ln].
    rewrite (pow2_split a (b + 1)). replace (a - (b + 1))%Z with (a - b - 1)%Z by lia.
    apply Qmult_le_l; [apply pow2_pos | apply Qlt_le_weak; exact Ud]. }
  destruct (Qle_bool (pow2 (a - b)) (n # d)) eqn:E.
  - apply Qle_bool_iff in E. split; assumption.
  - split; [exact Lower|].
    replace (a - b - 1 + 1)%Z with (a - b)%Z by lia.
    apply Qnot_le_lt. intros C. apply Qle_bool_iff in C. congruence.
Qed.

Lemma ilog2_unique x e : pow2 e <= x -> x < pow2 (e + 1) -> ilog2 x = e.
Proof.
  intros L U.
  assert (Hx : 0 < x) by (eapply Qlt_le_trans; [apply pow2_pos | exact L]).
  destruct (ilog2_spec x Hx) as [L' U'].
  assert (e < ilog2 x + 1)%Z by (apply pow2_lt_inv; eapply Qle_lt_trans; eassumption).
  assert (ilog2 x < e + 1)%Z by (apply pow2_lt_inv; eapply Qle_lt_trans; eassumption).
  lia.
Qed.

Lemma ilog2_mono x y : 0 < x -> x <= y -> (ilog2 x <= ilog2 y)%Z.
Proof.
  intros Hx Hxy.
  assert (Hy : 0 < y) by (eapply Qlt_le_trans; eassumption).
  destruct (ilog2_spec x Hx) as [L _]. destruct (ilog2_spec y Hy) as [_ U].
  assert (ilog2 x < ilog2 y + 1)%Z; [|lia].
  apply pow2_lt_inv. eapply Qle_lt_trans; [exact L|]. eapply Qle_lt_trans; eassumption.
Qed.

Lemma ulp_pos x : 0 < ulp x.
Proof. apply pow2_pos. Qed.

(** Rounding to the nearest integer. *)

Lemma roundEven_floor q :
  (Qfloor q <= roundEven q <= Qfloor q + 1)%Z.
Proof.
  unfold roundEven. destruct (q - inject_Z (Qfloor q) ?= 1 # 2); [destruct (Z.even _)| |]; lia.
Qed.

Lemma roundEven_ge q k : inject_Z k <= q -> (k <= roundEven q)%Z.
Proof.
  intros H. pose proof (roundEven_floor q).
  apply Qfloor_resp_le in H. rewrite Qfloor_Z in H. lia.
Qed.

Lemma roundEven_below q k : q < inject_Z k + (1 # 2) -> (roundEven q <= k)%Z.
Proof.
  intros H. pose proof (Qfloor_le q) as F.
  assert (Hk : (Qfloor q <= k)%Z).
  { assert (inject_Z (Qfloor q) < inject_Z (k + 1)).
    { rewrite inject_Z_plus. change (inject_Z 1) with 1. lra. }
    rewrite <- Zlt_Qlt in H0. lia. }
  pose proof (roundEven_floor q).
  destruct (Z.eq_dec (Qfloor q) k) as [E|E]; [|lia].
  unfold roundEven.
  destruct (q - inject_Z (Qfloor q) ?= 1 # 2) eqn:C.
  - apply Qeq_alt in C. rewrite E in C. lra.
  - lia.
  - apply Qgt_alt in C. rewrite E in C. lra.
Qed.

Lemma roundEven_le q k : q <= inject_Z k -> (roundEven q <= k)%Z.
Proof. intros H. apply roundEven_below. lra. Qed.

Lemma roundEven_err q :
  q - (1 # 2) <= inject_Z (roundEven q) /\ inject_Z (roundEven q) <= q + (1 # 2).
Proof.
  pose proof (Qfloor_le q) as F. pose proof (Qlt_floor q) as G.
  rewrite inject_Z_plus in G. change (inject_Z 1) with 1 in G.
  unfold roundEven.
  destruct (q - inject_Z (Qfloor q) ?= 1 # 2) eqn:C.
  - apply Qeq_alt in C.
    destruct (Z.even _); [|rewrite inject_Z_plus; change (inject_Z 1) with 1]; lra.
  - apply Qlt_alt in C. lra.
  - apply Qgt_alt in C. rewrite inject_Z_plus; change (inject_Z 1) with 1. lra.
Qed.

(** Rounding to the nearest double. *)

Lemma Qnum_pos x : 0 < x -> exists p, Qnum x = Zpos p.
Proof.
  destruct x as [[|p|p] d]; unfold Qlt; simpl; intros H; try lia. now exists p.
Qed.

Lemma rnd_pos x : 0 < x -> rnd x = rndPos x.
Proof. intros H. destruct (Qnum_pos x H) as [p E]. unfold rnd. now rewrite E. Qed.

Lemma rnd_zero x : x == 0 -> rnd x = 0.
Proof.
  destruct x as [[|p|p] d]; unfold Qeq; simpl; intros H; try lia. reflexivity.
Qed.

(** A positive double is a whole multiple of the unit in the last place of
    every positive number below it. *)
Lemma double_grid x y :
  0 < x -> x <= y -> isDouble y = true ->
  exists k, y == inject_Z k * ulp x.
Proof.
  intros Hx Hxy D.
  assert (Hy : 0 < y) by (eapply Qlt_le_trans; eassumption).
  apply Qeq_bool_eq in D. rewrite rnd_pos in D by exact Hy. unfold rndPos in D.
  pose proof (ilog2_mono x y Hx Hxy) as M.
  assert (E : ulp y == inject_Z (2 ^ (ilog2 y - ilog2 x)) * ulp x).
  { rewrite <- pow2_Z by lia. unfold ulp. rewrite <- pow2_add.
    replace (ilog2 y - ilog2 x + (ilog2 x - 52))%Z with (ilog2 y - 52)%Z by lia.
    reflexivity. }
  exists (roundEven (y / ulp y) * 2 ^ (ilog2 y - ilog2 x))%Z.
  rewrite inject_Z_mult, <- Qmult_assoc, <- E. symmetry. exact D.
Qed.

Lemma rndPos_le x y :
  0 < x -> x <= y -> isDouble y = true -> rndPos x <= y.
Proof.
  intros Hx Hxy D. destruct (double_grid x y Hx Hxy D) as [k Hk].
  pose proof (ulp_pos x) as U.
  assert (roundEven (x / ulp x) <= k)%Z.
  { apply roundEven_le. apply Qle_shift_div_r; [exact U|]. now rewrite <- Hk. }
  unfold rndPos. rewrite Hk. apply Qmult_le_compat_r; [|lra].
  now rewrite <- Zle_Qle.
Qed.

Lemma rndPos_binade x : 0 < x -> pow2 (ilog2 x) <= rndPos x.
Proof.
  intros Hx. destruct (ilog2_spec x Hx) as [L _].
  pose proof (ulp_pos x) as U.
  assert (E : pow2 (ilog2 x) == inject_Z (2 ^ 52) * ulp x).
  { rewrite <- pow2_Z by lia. unfold ulp. rewrite <- pow2_add.
    replace (52 + (ilog2 x - 52))%Z with (ilog2 x) by lia. reflexivity. }
  assert (2 ^ 52 <= roundEven (x / ulp x))%Z.
  { apply roundEven_ge. apply Qle_shift_div_l; [exact U|]. now rewrite <- E. }
  unfold rndPos. rewrite E. apply Qmult_le_compat_r; [|lra].
  now rewrite <- Zle_Qle.
Qed.

Lemma rndPos_ge x y :
  0 < y -> y <= x -> isDouble y = true -> y <= rndPos x.
Proof.
  intros Hy Hyx D.
  assert (Hx : 0 < x) by (eapply Qlt_le_trans; eassumption).
  pose proof (ilog2_mono y x Hy Hyx) as M.
  destruct (Z.eq_dec (ilog2 y) (ilog2 x)) as [E|E].
  - apply Qeq_bool_eq in D. rewrite rnd_pos in D by exact Hy. unfold rndPos in D.
    unfold rndPos. pose proof (ulp_pos x) as U.
    assert (Eu : ulp y = ulp x) by (unfold ulp; now rewrite E).
    rewrite Eu in D.
    assert (roundEven (y / ulp x) <= roundEven (x / ulp x))%Z.
    { apply roundEven_ge. apply Qle_shift_div_l; [exact U|]. now rewrite D. }
    rewrite <- D. apply Qmult_le_compat_r; [|lra]. now rewrite <- Zle_Qle.
  - destruct (ilog2_spec y Hy) as [_ Uy].
    apply Qle_trans with (pow2 (ilog2 x)); [|now apply rndPos_binade].
    apply Qlt_le_weak. eapply Qlt_le_trans; [exact Uy|]. apply pow2_le. lia.
Qed.

Lemma rnd_nonneg x : 0 <= x -> 0 <= rnd x.
Proof.
  intros H. destruct (Qlt_le_dec 0 x) as [P|N].
  - rewrite rnd_pos by exact P. eapply Qle_trans; [|now apply rndPos_binade].
    apply Qlt_le_weak, pow2_pos.
  - rewrite rnd_zero by lra. lra.
Qed.

(** Rounding keeps a number between the doubles that enclose it. *)
Lemma rnd_le x y : 0 <= x -> x <= y -> isDouble y = true -> rnd x <= y.
Proof.
  intros H0 Hxy D. destruct (Qlt_le_dec 0 x) as [P|N].
  - rewrite rnd_pos by exact P. now apply rndPos_le.
  - rewrite rnd_zero by lra. lra.
Qed.

Lemma rnd_ge x y : 0 <= y -> y <= x -> isDouble y = true -> y <= rnd x.
Proof.
  intros H0 Hyx D. destruct (Qlt_le_dec 0 y) as [P|N].
  - rewrite rnd_pos by lra. now apply rndPos_ge.
  - apply Qle_trans with 0; [lra|]. apply rnd_nonneg. lra.
Qed.

(** The result is the double nearest to the number: it is at most half a
    unit in the last place away. *)
Lemma rnd_err x :
  0 < x -> x - (1 # 2) * ulp x <= rnd x /\ rnd x <= x + (1 # 2) * ulp x.
Proof.
  intros Hx. rewrite rnd_pos by exact Hx. unfold rndPos.
  pose proof (ulp_pos x) as U.
  destruct (roundEven_err (x / ulp x)) as [L R].
  assert (E : x == x / ulp x * ulp x) by (field; lra).
  set (q := x / ulp x) in *. set (u := ulp x) in *.
  set (n := inject_Z (roundEven q)) in *.
  assert (A : (q - (1 # 2)) * u <= n * u) by (apply Qmult_le_compat_r; lra).
  assert (B : n * u <= (q + (1 # 2)) * u) by (apply Qmult_le_compat_r; lra).
  clearbody n q u. split; nra.
Qed.

(** A number less than half a unit above a double of its own binade is
    rounded to that double or below. *)
Lemma rnd_below x e k :
  pow2 e <= x -> x < pow2 (e + 1) ->
  x < (inject_Z k + (1 # 2)) * pow2 (e - 52) ->
  rnd x <= inject_Z k * pow2 (e - 52).
Proof.
  intros L U H.
  assert (Hx : 0 < x) by (eapply Qlt_le_trans; [apply pow2_pos | exact L]).
  rewrite rnd_pos by exact Hx. unfold rndPos, ulp.
  rewrite (ilog2_unique x e L U).
  pose proof (pow2_pos (e - 52)) as P.
  apply Qmult_le_compat_r; [|lra]. rewrite <- Zle_Qle.
  apply roundEven_below. apply Qlt_shift_div_r; assumption.
Qed.

(** The largest double below 1. *)
Lemma double_below_one r :
  isDouble r = true -> 0 <= r -> r < 1 -> r <= 1 - pow2 (-53).
Proof.
  intros D H0 H1. destruct (Qlt_le_dec 0 r) as [P|N].
  2:{ apply Qle_trans with 0; [exact N|]. vm_compute. discriminate. }
  destruct (ilog2_spec r P) as [L U].
  assert (He : (ilog2 r < 0)%Z).
  { apply pow2_lt_inv. eapply Qle_lt_trans; [exact L|]. exact H1. }
  destruct (Z.eq_dec (ilog2 r) (-1)) as [E|E].
  - apply Qeq_bool_eq in D. rewrite rnd_pos in D by exact P. unfold rndPos, ulp in D.
    rewrite E in D. change (-1 - 52)%Z with (-53)%Z in D.
    set (N := roundEven _) in D.
    assert (HN : (N < 2 ^ 53)%Z).
    { rewrite Zlt_Qlt. apply Qmult_lt_r with (pow2 (-53)); [apply pow2_pos|].
      rewrite D. eapply Qlt_le_trans; [exact H1|]. vm_compute. discriminate. }
    rewrite <- D.
    apply Qle_trans with (inject_Z (2 ^ 53 - 1) * pow2 (-53)).
    + apply Qmult_le_compat_r; [rewrite <- Zle_Qle; lia | vm_compute; discriminate].
    + vm_compute. discriminate.
  - apply Qle_trans with (pow2 (-1)).
    + apply Qlt_le_weak. eapply Qlt_le_trans; [exact U|]. apply pow2_le. lia.
    + vm_compute. discriminate.
Qed.

Lemma rnd_between lo hi x :
  isDouble lo = true -> isDouble hi = true -> 0 <= lo -> lo <= x -> x <= hi ->
  lo <= rnd x /\ rnd x <= hi.
Proof.
  intros Dl Dh H0 Hl Hh; split; [apply rnd_ge | apply rnd_le]; auto; lra.
Qed.

(** The product of a double below 1 and [c], a double of the binade [e]
    that is not a power of two, is rounded below [c]: at most to [k] units
    in the last place, the double that precedes [c]. *)
Lemma rnd_scaled c e k r :
  isDouble r = true -> 0 <= r -> r < 1 -> 0 < c ->
  isDouble (pow2 e) = true ->
  pow2 e <= inject_Z k * pow2 (e - 52) ->
  c * (1 - pow2 (-53)) < (inject_Z k + (1 # 2)) * pow2 (e - 52) ->
  c < pow2 (e + 1) ->
  rnd (r * c) <= inject_Z k * pow2 (e - 52).
Proof.
  intros D H0 H1 Hc De Hk Hhalf Htop.
  pose proof (double_below_one r D H0 H1) as Hr.
  assert (Hx : r * c <= c * (1 - pow2 (-53))).
  { rewrite (Qmult_comm r c). apply Qmult_le_l; assumption. }
  assert (Hx0 : 0 <= r * c) by (apply Qmult_le_0_compat; lra).
  destruct (Qlt_le_dec (r * c) (pow2 e)) as [Lo | Hi].
  - apply Qle_trans with (pow2 e); [|exact Hk].
    apply rnd_le; [exact Hx0 | lra | exact De].
  - apply rnd_below; [exact Hi | | lra].
    apply Qle_lt_trans with (c * (1 - pow2 (-53))); [exact Hx|].
    apply Qle_lt_trans with c; [|exact Htop].
    pose proof (pow2_pos (-53)) as P.
    rewrite <- (Qmult_1_r c) at 2. apply Qmult_le_l; [exact Hc | lra].
Qed.

(** *** The delays of the timer loops *)

Lemma blink_duration_range r :
  0 <= r -> r < 1 ->
  100 <= rnd (rnd (r * 50) + 100) /\ rnd (rnd (r * 50) + 100) <= 150.
Proof.
  intros H0 H1.
  assert (D0 : isDouble 0 = true) by closed.
  assert (D1 : isDouble 50 = true) by closed.
  assert (D2 : isDouble 100 = true) by closed.
  assert (D3 : isDouble 150 = true) by closed.
  destruct (rnd_between 0 50 (r * 50) D0 D1) as [A B]; try lra.
  apply rnd_between; try assumption; lra.
Qed.

Lemma blink_delay_range r :
  isDouble r = true -> 0 <= r -> r < 1 ->
  2500 <= rnd (rnd (r * 5000) + 2500) /\ rnd (rnd (r * 5000) + 2500) < 7500.
Proof.
  intros D H0 H1.
  assert (A : 0 <= rnd (r * 5000)) by (apply rnd_nonneg; lra).
  assert (B : rnd (r * 5000) <= inject_Z 5497558138879999 * pow2 (12 - 52)).
  { apply rnd_scaled; try assumption; closed. }
  set (g := inject_Z 5497558138879999 * pow2 (12 - 52)) in *.
  assert (G : g + 2500 < 7500) by closed.
  assert (D1 : isDouble 2500 = true) by closed.
  assert (D2 : isDouble (g + 2500) = true) by closed.
  clearbody g.
  split.
  - apply rnd_ge; [lra | lra | exact D1].
  - apply Qle_lt_trans with (g + 2500); [|exact G].
    apply rnd_le; [lra | lra | exact D2].
Qed.

Lemma gesture_delay_range r :
  0 <= r -> r < 1 ->
  4000 <= rnd (rnd (r * 8000) + 4000) /\ rnd (rnd (r * 8000) + 4000) <= 12000.
Proof.
  intros H0 H1.
  assert (D0 : isDouble 0 = true) by closed.
  assert (D1 : isDouble 8000 = true) by closed.
  assert (D2 : isDouble 4000 = true) by closed.
  assert (D3 : isDouble 12000 = true) by closed.
  destruct (rnd_between 0 8000 (r * 8000) D0 D1) as [A B]; try lra.
  apply rnd_between; try assumption; lra.
Qed.

Lemma gesture_hold_range r :
  0 <= r -> r < 1 ->
  2000 <= rnd (2000 + rnd (r * 1000)) /\ rnd (2000 + rnd (r * 1000)) <= 3000.
Proof.
  intros H0 H1.
  assert (D0 : isDouble 0 = true) by closed.
  assert (D1 : isDouble 1000 = true) by closed.
  assert (D2 : isDouble 2000 = true) by closed.
  assert (D3 : isDouble 3000 = true) by closed.
  destruct (rnd_between 0 1000 (r * 1000) D0 D1) as [A B]; try lra.
  apply rnd_between; try assumption; lra.
Qed.

Lemma gesture_index_range r :
  isDouble r = true -> 0 <= r -> r < 1 ->
  0 <= rnd (r * 3) /\ rnd (r * 3) < 3.
Proof.
  intros D H0 H1; split; [apply rnd_nonneg; lra|].
  apply Qle_lt_trans with (inject_Z 6755399441055743 * pow2 (1 - 52)).
  - apply rnd_scaled; try assumption; closed.
  - closed.
Qed.

Lemma roundEven_tie_up q k :
  Z.even k = true -> inject_Z k - (1 # 2) <= q -> (k <= roundEven q)%Z.
Proof.
  intros Ev H. destruct (Qlt_le_dec q (inject_Z k)) as [Lt | Ge].
  2:{ now apply roundEven_ge. }
  pose proof (Qfloor_le q) as F. pose proof (Qlt_floor q) as G.
  assert (Hf : inject_Z (k - 1) == inject_Z k - 1).
  { unfold Z.sub. rewrite inject_Z_plus, inject_Z_opp. reflexivity. }
  assert (E : Qfloor q = (k - 1)%Z).
  { assert (A : (Qfloor q < k)%Z).
    { rewrite Zlt_Qlt. eapply Qle_lt_trans; eassumption. }
    assert (B : (k - 1 < Qfloor q + 1)%Z).
    { rewrite Zlt_Qlt. eapply Qle_lt_trans; [|exact G]. lra. }
    lia. }
  unfold roundEven. rewrite E.
  destruct (q - inject_Z (k - 1) ?= 1 # 2) eqn:C.
  - replace (Z.even (k - 1)) with false; [lia|].
    rewrite Z.even_sub, Ev. reflexivity.
  - apply Qlt_alt in C. lra.
  - lia.
Qed.

(** A number at most half a unit below an even double of its binade is
    rounded to that double or above. *)
Lemma rnd_above x e k :
  pow2 e <= x -> x < pow2 (e + 1) -> Z.even k = true ->
  (inject_Z k - (1 # 2)) * pow2 (e - 52) <= x ->
  inject_Z k * pow2 (e - 52) <= rnd x.
Proof.
  intros L U Ev H.
  assert (Hx : 0 < x) by (eapply Qlt_le_trans; [apply pow2_pos | exact L]).
  rewrite rnd_pos by exact Hx. unfold rndPos, ulp.
  rewrite (ilog2_unique x e L U).
  pose proof (pow2_pos (e - 52)) as P.
  apply Qmult_le_compat_r; [|lra]. rewrite <- Zle_Qle.
  apply roundEven_tie_up; [exact Ev|]. apply Qle_shift_div_l; assumption.
Qed.

(** The doubles of a binade are the whole multiples of its unit in the last
    place, so a double below [k] units is at most [k - 1] units. *)
Lemma double_pred r e k :
  isDouble r = true -> pow2 e <= r -> r < pow2 (e + 1) ->
  r < inject_Z k * pow2 (e - 52) ->
  r <= inject_Z (k - 1) * pow2 (e - 52).
Proof.
  intros D L U H.
  assert (Hr : 0 < r) by (eapply Qlt_le_trans; [apply pow2_pos | exact L]).
  apply Qeq_bool_eq in D. rewrite rnd_pos in D by exact Hr.
  unfold rndPos, ulp in D. rewrite (ilog2_unique r e L U) in D.
  pose proof (pow2_pos (e - 52)) as P.
  set (N := roundEven _) in D.
  assert (HN : (N < k)%Z).
  { rewrite Zlt_Qlt. apply Qmult_lt_r with (pow2 (e - 52)); [exact P|].
    rewrite D. exact H. }
  rewrite <- D. apply Qmult_le_compat_r; [|lra].
  rewrite <- Zle_Qle. lia.
Qed.

Lemma Qfloor_eq x z :
  inject_Z z <= x -> x < inject_Z (z + 1) -> Qfloor x = z.
Proof.
  intros A B. pose proof (Qfloor_le x) as F. pose proof (Qlt_floor x) as G.
  assert (Qfloor x < z + 1)%Z by (rewrite Zlt_Qlt; eapply Qle_lt_trans; eassumption).
  assert (z < Qfloor x + 1)%Z by (rewrite Zlt_Qlt; eapply Qle_lt_trans; eassumption).
  lia.
Qed.

(** The index [Math.floor(Math.random() * 3)] by the draw: the thirds of
    the source, each moved down to the double before it. *)
Lemma gesture_thresholds r :
  isDouble r = true -> 0 <= r -> r < 1 ->
  (r < belowThird -> Qfloor (rnd (r * 3)) = 0%Z) /\
  (belowThird <= r -> r < belowTwoThirds -> Qfloor (rnd (r * 3)) = 1%Z) /\
  (belowTwoThirds <= r -> Qfloor (rnd (r * 3)) = 2%Z).
Proof.
  intros D H0 H1.
  destruct (gesture_index_range r D H0 H1) as [Lo Hi].
  assert (Below1 : r < belowThird -> rnd (r * 3) < 1).
  { intros H. destruct (Qlt_le_dec r (pow2 (-2))) as [S | B].
    - assert (P : pow2 (-2) * 3 < 1) by closed.
      assert (D1 : isDouble (pow2 (-2) * 3) = true) by closed.
      apply Qle_lt_trans with (pow2 (-2) * 3); [|exact P].
      apply rnd_le; [lra | | exact D1].
      apply Qmult_le_compat_r; lra.
    - assert (T : belowThird < pow2 (-2 + 1)) by closed.
      assert (R : r <= inject_Z (6004799503160661 - 1) * pow2 (-2 - 52)).
      { apply double_pred; try assumption; lra. }
      set (g := inject_Z (6004799503160661 - 1) * pow2 (-2 - 52)) in *.
      assert (P : g * 3 < 1) by closed.
      assert (D1 : isDouble (g * 3) = true) by closed.
      clearbody g.
      apply Qle_lt_trans with (g * 3); [|exact P].
      apply rnd_le; [lra | | exact D1].
      apply Qmult_le_compat_r; lra. }
  assert (Above1 : belowThird <= r -> 1 <= rnd (r * 3)).
  { intros H. destruct (Qlt_le_dec (r * 3) 1) as [S | B].
    - assert (T : pow2 (-1) <= belowThird * 3) by closed.
      assert (K : (inject_Z (2 ^ 53) - (1 # 2)) * pow2 (-1 - 52)
                  <= belowThird * 3) by closed.
      assert (E : inject_Z (2 ^ 53) * pow2 (-1 - 52) == 1) by closed.
      assert (X : belowThird * 3 <= r * 3)
        by (apply Qmult_le_compat_r; lra).
      rewrite <- E. apply rnd_above; [lra | | reflexivity | lra].
      eapply Qlt_le_trans; [exact S|]. closed.
    - apply rnd_ge; [lra | exact B | closed]. }
  assert (Below2 : r < belowTwoThirds -> rnd (r * 3) < 2).
  { intros H. destruct (Qlt_le_dec r (pow2 (-1))) as [S | B].
    - assert (P : pow2 (-1) * 3 < 2) by closed.
      assert (D1 : isDouble (pow2 (-1) * 3) = true) by closed.
      apply Qle_lt_trans with (pow2 (-1) * 3); [|exact P].
      apply rnd_le; [lra | | exact D1].
      apply Qmult_le_compat_r; lra.
    - assert (R : r <= inject_Z (6004799503160661 - 1) * pow2 (-1 - 52)).
      { apply double_pred; assumption. }
      set (g := inject_Z (6004799503160661 - 1) * pow2 (-1 - 52)) in *.
      assert (P : g * 3 < 2) by closed.
      assert (D1 : isDouble (g * 3) = true) by closed.
      clearbody g.
      apply Qle_lt_trans with (g * 3); [|exact P].
      apply rnd_le; [lra | | exact D1].
      apply Qmult_le_compat_r; lra. }
  assert (Above2 : belowTwoThirds <= r -> 2 <= rnd (r * 3)).
  { intros H. destruct (Qlt_le_dec (r * 3) 2) as [S | B].
    - assert (T : pow2 0 <= belowTwoThirds * 3) by closed.
      assert (K : (inject_Z (2 ^ 53) - (1 # 2)) * pow2 (0 - 52)
                  <= belowTwoThirds * 3) by closed.
      assert (E : inject_Z (2 ^ 53) * pow2 (0 - 52) == 2) by closed.
      assert (X : belowTwoThirds * 3 <= r * 3)
        by (apply Qmult_le_compat_r; lra).
      rewrite <- E. apply rnd_above; [lra | | reflexivity | lra].
      eapply Qlt_le_trans; [exact S|]. closed.
    - apply rnd_ge; [lra | exact B | closed]. }
  assert (Q12 : belowThird < belowTwoThirds) by closed.
  split; [|split]; intros A.
  - apply Qfloor_eq; [exact Lo | apply Below1, A].
  - intros B. apply Qfloor_eq; [apply Above1, A | apply Below2, B].
  - apply Qfloor_eq; [apply Above2, A | exact Hi].
Qed.

(** The index [Math.floor(Math.random() * 3)] is 0, 1 or 2. *)
Lemma gesture_index r :
  isDouble r = true -> 0 <= r -> r < 1 ->
  (Qfloor (rnd (r * 3)) = 0 \/ Qfloor (rnd (r * 3)) = 1 \/
   Qfloor (rnd (r * 3)) = 2)%Z.
Proof.
  intros D H0 H1. destruct (gesture_index_range r D H0 H1) as [Lo Hi].
  assert (A : (0 <= Qfloor (rnd (r * 3)))%Z).
  { change 0%Z with (Qfloor 0). apply Qfloor_resp_le. exact Lo. }
  assert (B : (Qfloor (rnd (r * 3)) < 3)%Z).
  { rewrite Zlt_Qlt. eapply Qle_lt_trans; [apply Qfloor_le | exact Hi]. }
  lia.
Qed.

End Doubles.

(** *** Hardware doubles

    On the operands met at the ends of the ranges, [rnd] returns what the
    binary64 arithmetic of the processor returns. *)
Lemma rnd_matches_hardware :
  isFloat 0x1.999999999999ap-1%float (rnd 0.8) = true /\
  isFloat 0x1.999999999999ap-2%float (rnd 0.4) = true /\
  isFloat 0x1.999999999999ap-4%float (rnd 0.1) = true /\
  isFloat (0x1.999999999999ap-4 + 0x1.999999999999ap-3)%float
    (rnd (rnd 0.1 + rnd 0.2)) = true /\
  isFloat (- 0x1.999999999999ap-4 * 3)%float (rnd (- rnd 0.1 * 3)) = true /\
  isFloat 0x1.ffffffffffffep-1%float lastDraw = true /\
  isFloat (0x1.ffffffffffffep-1 * 50 + 100)%float
    (rnd (rnd (lastDraw * 50) + 100)) = true /\
  isFloat (0x1.ffffffffffffep-1 * 5000 + 2500)%float
    (rnd (rnd (lastDraw * 5000) + 2500)) = true /\
  isFloat (2000 + 0x1.ffffffffffffep-1 * 1000)%float
    (rnd (2000 + rnd (lastDraw * 1000))) = true /\
  isFloat 0x1.fffffffffffffp-1%float lastDouble = true /\
  isFloat (0x1.fffffffffffffp-1 * 8000 + 4000)%float
    (rnd (rnd (lastDouble * 8000) + 4000)) = true /\
  isFloat 0x1.5555555555555p-2%float belowThird = true /\
  isFloat (0x1.5555555555555p-2 * 3)%float (rnd (belowThird * 3)) = true /\
  isFloat 0x1.5555555555555p-1%float belowTwoThirds = true /\
  isFloat (0x1.5555555555555p-1 * 3)%float (rnd (belowTwoThirds * 3)) = true /\
  isFloat (20 + 0x1.999999999999bp-4 * 100)%float
    (rnd (20 + rnd ((7205759403792795 # 72057594037927936) * 100))) = true.
Proof. repeat split; vm_compute; reflexivity. Qed.

(** ** Reasoning about effects *)

Lemma preserves_ret {V A : Type} (f : World -> V) (a : A) :
  preserves f (ret a).
Proof. intros w; reflexivity. Qed.

Lemma preserves_gets {V A : Type} (f : World -> V) (g : World -> A) :
  preserves f (gets g).
Proof. intros w; reflexivity. Qed.

Lemma preserves_bind {V A B : Type} (f : World -> V) (m : Eff A)
  (k : A -> Eff B) :
  preserves f m -> (forall a, preserves f (k a)) -> preserves f (bind m k).
Proof. intros Hm Hk w; unfold bind; rewrite Hk; apply Hm. Qed.

Lemma preserves_when {V : Type} (f : World -> V) (b : bool) (m : Eff unit) :
  preserves f m -> preserves f (when b m).
Proof. intros Hm; destruct b; [exact Hm | apply preserves_ret]. Qed.

Lemma preserves_forEach {V A : Type} (f : World -> V) (l : list A)
  (g : A -> Eff unit) :
  (forall a, preserves f (g a)) -> preserves f (forEach l g).
Proof.
  intros Hg; induction l as [|x l IH]; simpl;
    [apply preserves_ret | apply preserves_bind; auto].
Qed.

Lemma keeps_ret {A : Type} (I : World -> Prop) (a : A) : keeps I (ret a).
Proof. intros w H; exact H. Qed.

Lemma keeps_gets {A : Type} (I : World -> Prop) (g : World -> A) :
  keeps I (gets g).
Proof. intros w H; exact H. Qed.

Lemma keeps_bind {A B : Type} (I : World -> Prop) (m : Eff A)
  (k : A -> Eff B) :
  keeps I m -> (forall a, keeps I (k a)) -> keeps I (bind m k).
Proof. intros Hm Hk w H; unfold bind; apply Hk, Hm, H. Qed.

Lemma keeps_when (I : World -> Prop) (b : bool) (m : Eff unit) :
  keeps I m -> keeps I (when b m).
Proof. intros Hm; destruct b; [exact Hm | apply keeps_ret]. Qed.

(** An invariant that reads the page only through [f] is kept by whatever
    preserves [f]. *)
Lemma keeps_preserved {V A : Type} (f : World -> V) (I : World -> Prop)
  (m : Eff A) :
  (forall w w', f w' = f w -> I w -> I w') -> preserves f m -> keeps I m.
Proof. intros HI Hm w H; exact (HI w _ (Hm w) H). Qed.

(** Frame reasoning: split an effect along its binds and branches down to
    the primitive updates, each of which leaves the view alone by
    computation. *)
Ltac head_of t :=
  match t with
  | ?f _ => head_of f
  | _ => t
  end.

Ltac frame_step :=
  match goal with
  | |- preserves _ (bind _ _) => apply preserves_bind; [|intro]
  | |- preserves _ (ret _) => apply preserves_ret
  | |- preserves _ (gets _) => apply preserves_gets
  | |- preserves _ (when _ _) => apply preserves_when
  | |- preserves _ (forEach _ _) => apply preserves_forEach; intro
  | |- preserves _ (if ?b then _ else _) => destruct b
  | |- preserves _ (match ?x with _ => _ end) => destruct x
  | |- preserves _ (modify _) => intro; reflexivity
  | |- preserves _ (setTimeout _ _) => intro; reflexivity
  | |- preserves _ (clearTimeout _) => intro; reflexivity
  | |- preserves _ (call _) => intro; reflexivity
  | |- preserves _ (stopTracks _) => intro; reflexivity
  | |- preserves _ getUserMedia => intro; reflexivity
  | |- preserves _ (mathRandom _) => intro; reflexivity
  | |- preserves _ ?m => let h := head_of m in unfold h
  end.

Ltac frame := repeat frame_step.

(** ** The controller *)

Section Properties.
Variable random : nat -> Q.
Variable toLowerCase : jsstring -> jsstring.

Local Abbreviation commit := (commit random toLowerCase).
Local Abbreviation step := (step random toLowerCase).
Local Abbreviation run := (run random toLowerCase).

Lemma commit_controller prev : preserves controller (commit prev).
Proof. frame. Qed.

(** A render after which no dependency changed runs no effect. *)
Lemma commit_same prev w :
  renderDeps w = renderDeps prev -> exec (commit prev) w = w.
Proof.
  unfold renderDeps; intros H; injection H as Hs Hr.
  unfold commit, exec, bind, gets; simpl.
  rewrite Hs, Hr, Status_eqb_refl, option_jsstring_eqb_refl; reflexivity.
Qed.

Lemma step_handler e w :
  e <> TimerDue -> (forall d, e <> Wait d) ->
  step e w = Some (exec (commit w) (exec (handler e) w)).
Proof.
  destruct e; intros H1 H2; try reflexivity;
    [congruence | exfalso; eapply H2; reflexivity].
Qed.

Lemma step_quiet e w :
  e <> TimerDue -> (forall d, e <> Wait d) ->
  preserves renderDeps (handler e) ->
  step e w = Some (exec (handler e) w).
Proof.
  intros H1 H2 Hp; rewrite step_handler by assumption.
  rewrite commit_same; [reflexivity | apply Hp].
Qed.

Ltac by_controller :=
  unfold exec;
  match goal with
  | |- _ (snd (commit ?prev ?w)) = _ =>
      let H := fresh in
      pose proof (commit_controller prev w) as H;
      unfold controller in H; injection H; intros; assumption
  end.

Section Rendered.
Variables prev w : World.
Lemma commit_needsApiKey : needsApiKey (exec (commit prev) w) = needsApiKey w.
Proof. by_controller. Qed.
Lemma commit_audioLevel : audioLevel (exec (commit prev) w) = audioLevel w.
Proof. by_controller. Qed.
Lemma commit_status : status (exec (commit prev) w) = status w.
Proof. by_controller. Qed.
Lemma commit_error : error (exec (commit prev) w) = error w.
Proof. by_controller. Qed.
Lemma commit_lastMemory : lastMemory (exec (commit prev) w) = lastMemory w.
Proof. by_controller. Qed.
Lemma commit_textInput : textInput (exec (commit prev) w) = textInput w.
Proof. by_controller. Qed.
Lemma commit_astraResponse :
  astraResponse (exec (commit prev) w) = astraResponse w.
Proof. by_controller. Qed.
Lemma commit_latestResponseRef :
  latestResponseRef (exec (commit prev) w) = latestResponseRef w.
Proof. by_controller. Qed.
Lemma commit_isTyping : isTyping (exec (commit prev) w) = isTyping w.
Proof. by_controller. Qed.
Lemma commit_videoUrl : videoUrl (exec (commit prev) w) = videoUrl w.
Proof. by_controller. Qed.
Lemma commit_isAnimating : isAnimating (exec (commit prev) w) = isAnimating w.
Proof. by_controller. Qed.
Lemma commit_animationStatus :
  animationStatus (exec (commit prev) w) = animationStatus w.
Proof. by_controller. Qed.
Lemma commit_now : now (exec (commit prev) w) = now w.
Proof. by_controller. Qed.
Lemma commit_calls : calls (exec (commit prev) w) = calls w.
Proof. by_controller. Qed.
Lemma commit_isVisionSync :
  isVisionSync (exec (commit prev) w) = isVisionSync w.
Proof. by_controller. Qed.
End Rendered.

Create Rewrite HintDb render.
#[local] Hint Rewrite
  commit_needsApiKey commit_audioLevel commit_status commit_error
  commit_lastMemory commit_textInput commit_astraResponse
  commit_latestResponseRef commit_isTyping commit_videoUrl commit_isAnimating
  commit_animationStatus commit_now commit_calls commit_isVisionSync
  : render.

(** C3, as the code has it: the turn-complete callback resets the session
    state to idle, clears the typing flag and resets the internal
    last-response ref to the empty string; the response text on display
    ([astraResponse]) stays as the last transcription left it. *)
Theorem turn_complete_resets w :
  exists w', step TurnComplete w = Some w' /\
    status w' = Idle /\ isTyping w' = false /\ latestResponseRef w' = [] /\
    astraResponse w' = astraResponse w.
Proof.
  rewrite step_handler by discriminate.
  eexists; split; [reflexivity|].
  simpl handler; autorewrite with render; repeat split.
Qed.

(** C1, as the code has it: along every sequence of events the session state
    is one of idle, listening, speaking; stopping the session with
    [toggleSession], the error callback and the turn-complete callback each
    set the state to idle and clear the typing flag; [toggleSession] also
    sets the audio level to zero, and the two callbacks leave the audio
    level as it was. *)
Theorem idle_transitions :
  (forall es w0 w, run es w0 = Some w ->
     In (status w) [Idle; Listening; Speaking]) /\
  (forall o w, status w <> Idle ->
     exists w', step (ClickSession o) w = Some w' /\
       status w' = Idle /\ isTyping w' = false /\ audioLevel w' = 0%Q) /\
  (forall msg w,
     exists w', step (ServiceError msg) w = Some w' /\
       status w' = Idle /\ isTyping w' = false /\ audioLevel w' = audioLevel w) /\
  (forall w,
     exists w', step TurnComplete w = Some w' /\
       status w' = Idle /\ isTyping w' = false /\ audioLevel w' = audioLevel w).
Proof.
  split; [|split; [|split]].
  - intros es w0 w _; destruct (status w); simpl; auto.
  - intros o w Hs; rewrite step_handler by discriminate.
    eexists; split; [reflexivity|].
    simpl handler; autorewrite with render.
    unfold toggleSession, exec, bind, gets; simpl.
    destruct (status w); [congruence | |]; repeat split.
  - intros msg w; rewrite step_handler by discriminate.
    eexists; split; [reflexivity|].
    simpl handler; autorewrite with render.
    unfold onError, exec, bind, when; simpl.
    destruct (_ || _); repeat split.
  - intros w; rewrite step_handler by discriminate.
    eexists; split; [reflexivity|].
    simpl handler; autorewrite with render; repeat split.
Qed.

(** What a memory update does: it stores the fact and sets a timer due
    8000 ms later that clears the memory note, next to the timers already
    pending (none is cancelled); when such a timer is the next to run it
    clears the note, whichever fact the note shows, at its due time. *)
Lemma memory_note_window fact w :
  (exists w', step (MemoryUpdate fact) w = Some w' /\
     lastMemory w' = Some fact /\
     timers w' = timers w ++
       [{| handle := nextHandle w; due := now w + 8000;
           callback := MemoryClear |}]) /\
  (forall t, earliest (timers w) = Some t -> callback t = MemoryClear ->
     exists w', step TimerDue w = Some w' /\ lastMemory w' = None /\
       (now w <= due t -> now w' == due t)).
Proof.
  split.
  - rewrite (step_quiet (MemoryUpdate fact)); try discriminate; [|simpl; frame].
    eexists; split; [reflexivity|]; split; reflexivity.
  - intros t Ht Hcb; unfold step; eexists. 
    simpl. rewrite Ht, Hcb. split; [reflexivity|].
    autorewrite with render. split.
    + reflexivity.
    + intros Hle; simpl.
      destruct (Qle_bool (due t) (now w)) eqn:E; simpl; [|reflexivity].
      apply Qle_bool_iff in E. apply Qle_antisym; assumption.
Qed.

(** C8: [handleSendMessage] changes nothing (no call to [send], same text
    input) when the text is blank or all white space or the session is not
    connected; otherwise it forwards the text to the collaborator and clears
    the previous response, and ends with typing on and the input cleared when
    the send succeeds, with typing off when the send fails. *)
Theorem send_message o w :
  (forallb isWhiteSpace (textInput w) = true \/ status w = Idle ->
   step (ClickSend o) w = Some w) /\
  (forallb isWhiteSpace (textInput w) = false -> status w <> Idle ->
   exists w', step (ClickSend o) w = Some w' /\
     calls w' = calls w ++ [SvcSend (textInput w)] /\
     astraResponse w' = None /\
     match o with
     | SendOk => isTyping w' = true /\ textInput w' = []
     | SendThrows => isTyping w' = false /\ textInput w' = textInput w
     end).
Proof.
  split.
  - intros H.
    assert (Hn : exec (handleSendMessage o) w = w).
    { unfold handleSendMessage, exec, bind, gets, isConnected; simpl.
      destruct H as [H | H].
      - apply trim_nil in H; rewrite H; reflexivity.
      - rewrite H; simpl; rewrite orb_true_r; reflexivity. }
    rewrite step_handler by discriminate; simpl.
    rewrite Hn, commit_same; reflexivity.
  - intros Hb Hs; rewrite step_handler by discriminate.
    eexists; split; [reflexivity|].
    simpl handler; autorewrite with render.
    unfold handleSendMessage, exec, bind, gets, isConnected; simpl.
    destruct (trim (textInput w)) eqn:Et.
    { apply trim_nil in Et; congruence. }
    destruct (status w); [congruence| |]; simpl; destruct o; repeat split.
Qed.

(** C4: [handleAnimate] changes nothing while the busy flag is set;
    otherwise, however the collaborator settles, it ends with the busy flag
    off and the progress text empty, stores the video URL on success, and
    on [QUOTA_EXHAUSTED] stores a message containing [Quota Exhausted] and
    asks for the API key again. *)
Theorem animate_request progress o w :
  (isAnimating w = true -> step (ClickAnimate progress o) w = Some w) /\
  (isAnimating w = false ->
   exists w', step (ClickAnimate progress o) w = Some w' /\
     isAnimating w' = false /\ animationStatus w' = [] /\
     (forall url, o = AnimateOk url -> videoUrl w' = Some url) /\
     (o = AnimateThrows (ThrownValue (Some (js "QUOTA_EXHAUSTED"))) ->
      needsApiKey w' = true /\
      exists msg,
        error w' = Some msg /\ includes (js "Quota Exhausted") msg = true)).
Proof.
  assert (Hq : step (ClickAnimate progress o) w
               = Some (exec (handleAnimate progress o) w)).
  { apply (step_quiet (ClickAnimate progress o)); try discriminate.
    simpl; frame. }
  rewrite Hq; split; intros Hb.
  - unfold handleAnimate, exec, bind, gets; simpl; rewrite Hb. reflexivity.
  - eexists; split; [reflexivity|].
    unfold handleAnimate, exec, bind, gets. simpl; rewrite Hb.
    repeat split.
    + intros url ->; reflexivity.
    + subst o.
      repeat match goal with
      | |- context [messageIs ?a ?b] =>
          let v := eval vm_compute in (messageIs a b) in
          change (messageIs a b) with v
      end; reflexivity.
    + subst o.
      repeat match goal with
      | |- context [messageIs ?a ?b] =>
          let v := eval vm_compute in (messageIs a b) in
          change (messageIs a b) with v
      end; simpl. eexists; split; [reflexivity|]. vm_compute. reflexivity.
Qed.

Lemma lipSync_mouth w :
  mouthShape (exec (lipSyncEffect random toLowerCase) w) =
  mouthOf toLowerCase (status w) (astraResponse w) (random (drawn w)).
Proof.
  unfold lipSyncEffect, mouthOf, exec, bind, gets; cbv zeta; cbn [fst snd].
  destruct (negb (Status_eqb (status w) Speaking)
            || negb (truthy (astraResponse w)));
    [reflexivity|].
  destruct (arrayIncludes vowels _); [reflexivity|].
  destruct (arrayIncludes plosives _); [reflexivity|].
  destruct (arrayIncludes fricatives _); reflexivity.
Qed.


Lemma lipSyncEffect_deps :
  preserves renderDeps (lipSyncEffect random toLowerCase).
Proof. frame. Qed.

Lemma LipInv_lip w w' :
  lip w' = lip w ->
  LipInv random toLowerCase w -> LipInv random toLowerCase w'.
Proof. unfold lip, LipInv; intros H; injection H as -> -> ->; auto. Qed.

Lemma lipSyncEffect_lip w :
  LipInv random toLowerCase (snd (lipSyncEffect random toLowerCase w)).
Proof.
  exists (drawn w).
  pose proof (lipSyncEffect_deps w) as Hd; unfold renderDeps in Hd.
  injection Hd as Hs Hr; rewrite Hs, Hr; apply lipSync_mouth.
Qed.

Lemma idleEffect_lip : preserves lip (idleEffect random).
Proof. frame. Qed.

(** A render leaves the mouth in the shape derived from what it rendered. *)
Lemma commit_lip prev w :
  mouthShape w = mouthShape prev ->
  LipInv random toLowerCase prev ->
  LipInv random toLowerCase (exec (commit prev) w).
Proof.
  intros Hm H; unfold commit, exec, bind, gets; cbv zeta; cbn [fst snd].
  destruct (Status_eqb (status w) (status prev)) eqn:Es;
    cbn [negb when orb].
  - destruct (option_jsstring_eqb (astraResponse w) (astraResponse prev)) eqn:Er;
      cbn [negb when orb].
    + apply Status_eqb_eq in Es.
      assert (Er' : astraResponse w = astraResponse prev).
      { destruct (astraResponse w), (astraResponse prev); simpl in Er;
          try discriminate; [apply jsstring_eqb_eq in Er; congruence | reflexivity]. }
      revert H; apply LipInv_lip; unfold lip; unfold ret; simpl; congruence.
    + unfold ret; cbn [fst snd]; apply lipSyncEffect_lip.
  - rewrite orb_true_r.
    eapply LipInv_lip; [apply idleEffect_lip | apply lipSyncEffect_lip].
Qed.

Lemma step_keeps_lip e w w' :
  step e w = Some w' ->
  LipInv random toLowerCase w -> LipInv random toLowerCase w'.
Proof.
  intros Hstep H.
  assert (Hh : forall x,
            Some (exec (commit w) (exec (handler e) w)) = Some x ->
            LipInv random toLowerCase x).
  { intros x Hx; injection Hx as <-.
    apply commit_lip; [|exact H].
    assert (Hp : preserves mouthShape (handler e))
      by (destruct e; simpl handler; frame).
    apply Hp. }
  destruct e; try (apply Hh; exact Hstep).
  - unfold step in Hstep.
    destruct (earliest (timers w)) as [t|]; [|discriminate].
    injection Hstep as <-.
    set (w2 := if Qle_bool _ _ then _ else _).
    assert (H2 : LipInv random toLowerCase w2).
    { revert H; apply LipInv_lip; subst w2.
      destruct (Qle_bool _ _); reflexivity. }
    apply commit_lip; [|exact H2].
    assert (Hp : preserves mouthShape (runCallback random (callback t)))
      by (destruct (callback t); simpl; frame).
    apply Hp.
  - unfold step in Hstep; destruct (_ && _); [|discriminate].
    injection Hstep as <-; revert H; apply LipInv_lip; reflexivity.
Qed.


Lemma mounted_lip : LipInv random toLowerCase (mounted random toLowerCase).
Proof.
  unfold mounted, mount, exec, bind.
  eapply LipInv_lip; [apply idleEffect_lip | apply lipSyncEffect_lip].
Qed.


(** C10: waw is listed among the vowels and among the fricatives, and since
    the vowels are tested first a response text that ends in waw gives,
    while speaking, the vowel shape and not the fricative one. *)
Theorem waw_is_vowel pre w :
  toLowerCase [waw] = [waw] ->
  status w = Speaking ->
  astraResponse w = Some (pre ++ [waw]) ->
  In [waw] vowels /\ In [waw] fricatives /\
  mouthShape (exec (lipSyncEffect random toLowerCase) w) =
    {| scale := 1.2 + random (drawn w) * 0.1; skew := 1.5 |} /\
  ~ skew (mouthShape (exec (lipSyncEffect random toLowerCase) w)) == 0.8.
Proof.
  intros Hl Hs Hr.
  assert (Hv : In [waw] vowels) by (simpl; tauto).
  assert (Hf : In [waw] fricatives) by (simpl; tauto).
  assert (Hm : mouthShape (exec (lipSyncEffect random toLowerCase) w) =
               {| scale := 1.2 + random (drawn w) * 0.1; skew := 1.5 |}).
  { rewrite lipSync_mouth, Hs, Hr; unfold mouthOf.
    replace (truthy (Some (pre ++ [waw]))) with true
      by (destruct pre; reflexivity).
    cbn [Status_eqb negb orb unwrap]; cbv zeta.
    rewrite sliceLast_trim_snoc by reflexivity.
    rewrite Hl. reflexivity. }
  repeat split; try assumption.
  rewrite Hm; simpl. intros H; discriminate H.
Qed.

Lemma stopBoundTracks_live w :
  CameraInv w -> liveStreams (exec stopBoundTracks w) = [].
Proof.
  intros [Hm [Hl | [s [Hl Hs]]]];
    unfold stopBoundTracks, exec, bind, gets; simpl; rewrite Hm.
  - destruct (srcObject w); simpl; rewrite Hl; reflexivity.
  - rewrite Hs; simpl; rewrite Hl; simpl; rewrite Nat.eqb_refl; reflexivity.
Qed.

Lemma stopBoundTracks_camera w :
  videoMounted (exec stopBoundTracks w) = videoMounted w /\
  srcObject (exec stopBoundTracks w) = srcObject w /\
  nextStream (exec stopBoundTracks w) = nextStream w.
Proof.
  unfold stopBoundTracks, exec, bind, gets; simpl.
  destruct (videoMounted w) eqn:Em, (srcObject w) eqn:Es; simpl;
    rewrite ?Em, ?Es; repeat split.
Qed.

Lemma startCamera_granted mode w :
  CameraInv w ->
  let w' := exec (startCamera mode CameraGranted) w in
  videoMounted w' = true /\ liveStreams w' = [nextStream w] /\
  srcObject w' = Some (nextStream w) /\
  isVisionSync w' = true /\ facingMode w' = mode.
Proof.
  intros H; pose proof (stopBoundTracks_live w H) as Hl.
  destruct (stopBoundTracks_camera w) as [Hm [_ Hn]].
  destruct H as [Hv _]; rewrite Hv in Hm.
  unfold startCamera, exec, bind, gets, when in *; simpl.
  rewrite Hm, Hl, Hn; simpl.
  destruct (isConnected _); simpl; repeat split; assumption.
Qed.

Lemma startCamera_denied mode w :
  let w' := exec (startCamera mode CameraDenied) w in
  isVisionSync w' = false /\
  error w' =
    Some (js "Neural lens access denied. Please check camera permissions.") /\
  (CameraInv w -> videoMounted w' = true /\ liveStreams w' = []).
Proof.
  split; [reflexivity | split; [reflexivity|]].
  intros H; pose proof (stopBoundTracks_live w H) as Hl.
  destruct (stopBoundTracks_camera w) as [Hm _].
  destruct H as [Hv _]; rewrite Hv in Hm.
  unfold startCamera, exec, bind in *; simpl; auto.
Qed.

(** Whatever the page, the tracks of the bound stream are stopped before
    the camera is asked for. *)
Lemma startCamera_stops mode o w s x :
  videoMounted w = true -> srcObject w = Some s ->
  In x (liveStreams (exec (startCamera mode o) w)) ->
  x <> s \/ (o = CameraGranted /\ x = nextStream w).
Proof.
  intros Hm Hs.
  assert (Hstop : forall y,
            In y (liveStreams (exec stopBoundTracks w)) -> y <> s).
  { unfold stopBoundTracks, exec, bind, gets; simpl; rewrite Hm, Hs; simpl.
    intros y Hy; apply filter_In in Hy; destruct Hy as [_ Hy].
    intros ->; rewrite Nat.eqb_refl in Hy; discriminate. }
  destruct (stopBoundTracks_camera w) as [Hm' [_ Hn]]; rewrite Hm in Hm'.
  unfold startCamera, exec, bind, gets, when in *; destruct o; simpl.
  - rewrite Hm', Hn; simpl.
    destruct (isConnected _); simpl;
      (intros [<- | Hx]; [right; split; reflexivity | left; apply Hstop, Hx]).
  - intros Hx; left; apply Hstop, Hx.
Qed.

Lemma startCamera_keeps mode o : keeps CameraInv (startCamera mode o).
Proof.
  intros w H; destruct o.
  - destruct (startCamera_granted mode w H) as [Hm [Hl [Hs _]]].
    split; [exact Hm | right; eauto].
  - destruct (startCamera_denied mode w) as [_ [_ Hd]].
    destruct (Hd H) as [Hm Hl]; split; [exact Hm | left; exact Hl].
Qed.

Lemma toggleVision_keeps o : keeps CameraInv (toggleVision o).
Proof.
  intros w H; unfold toggleVision, bind, gets; simpl.
  destruct (isVisionSync w); [|apply startCamera_keeps, H].
  destruct H as [Hm [Hl | [s [Hl Hs]]]]; simpl; rewrite Hm.
  - destruct (srcObject w); simpl; (split; [exact Hm | left]); simpl;
      try rewrite Hl; reflexivity.
  - rewrite Hs; simpl; split; [exact Hm | left]; simpl.
    rewrite Hl; simpl; rewrite Nat.eqb_refl; reflexivity.
Qed.

Lemma switchCamera_keeps o : keeps CameraInv (switchCamera o).
Proof.
  intros w H; unfold switchCamera, bind, gets; apply startCamera_keeps, H.
Qed.

Lemma CameraInv_camera w w' :
  camera w' = camera w -> CameraInv w -> CameraInv w'.
Proof.
  unfold camera, CameraInv; intros H; injection H as -> -> ->; auto.
Qed.

Lemma handler_keeps_camera e : keeps CameraInv (handler e).
Proof.
  destruct e; simpl handler;
    try (apply (keeps_preserved camera); [apply CameraInv_camera | solve [frame]]).
  - apply toggleVision_keeps.
  - apply switchCamera_keeps.
Qed.

Lemma commit_keeps_camera prev : keeps CameraInv (commit prev).
Proof. apply (keeps_preserved camera); [apply CameraInv_camera | frame]. Qed.

Lemma runCallback_keeps_camera cb : keeps CameraInv (runCallback random cb).
Proof. apply (keeps_preserved camera); [apply CameraInv_camera | frame]. Qed.

Lemma step_keeps_camera e w w' :
  step e w = Some w' -> CameraInv w -> CameraInv w'.
Proof.
  intros Hstep H.
  assert (Hh : forall x,
            Some (exec (commit w) (exec (handler e) w)) = Some x ->
            CameraInv x).
  { intros x Hx; injection Hx as <-.
    apply commit_keeps_camera, handler_keeps_camera, H. }
  destruct e; try (apply Hh; exact Hstep).
  - unfold step in Hstep.
    destruct (earliest (timers w)) as [t|]; [|discriminate].
    injection Hstep as <-.
    apply commit_keeps_camera, runCallback_keeps_camera.
    destruct (Qle_bool _ _); exact H.
  - unfold step in Hstep. destruct (_ && _); [|discriminate].
    injection Hstep as <-; exact H.
Qed.

Lemma run_keeps_camera es : forall w w',
  run es w = Some w' -> CameraInv w -> CameraInv w'.
Proof.
  induction es as [|e es IH]; simpl; intros w w' Hr H.
  - injection Hr as <-; exact H.
  - destruct (step e w) as [w1|] eqn:E; [|discriminate].
    eapply IH; [exact Hr | eapply step_keeps_camera; eauto].
Qed.

Lemma CameraInv_live w : CameraInv w -> (List.length (liveStreams w) <= 1)%nat.
Proof. intros [_ [-> | [s [-> _]]]]; simpl; lia. Qed.

Lemma mounted_camera : CameraInv (mounted random toLowerCase).
Proof.
  apply (keeps_preserved camera CameraInv (mount random toLowerCase));
    [apply CameraInv_camera | frame |].
  split; [reflexivity | left; reflexivity].
Qed.

(** Camera requests that do not overlap: as long as every request settles
    before the next event, which is how [step] runs them, at most one camera
    stream has running tracks on every page reached from the mounted one;
    [startCamera] stops the tracks of the bound stream before it asks for a
    new one, so that after a grant the new stream is the only one running
    and after a refusal none is, the error message is stored and vision is
    off; two [startCamera] run one after the other leave at most one stream
    running. *)
Lemma one_camera_stream :
  (forall es w, run es (mounted random toLowerCase) = Some w ->
     (List.length (liveStreams w) <= 1)%nat) /\
  (forall es w0 w, CameraInv w0 -> run es w0 = Some w ->
     CameraInv w /\ (List.length (liveStreams w) <= 1)%nat) /\
  (forall mode w, CameraInv w ->
     let w' := exec (startCamera mode CameraGranted) w in
     liveStreams w' = [nextStream w] /\ srcObject w' = Some (nextStream w) /\
     isVisionSync w' = true /\ facingMode w' = mode) /\
  (forall mode w,
     let w' := exec (startCamera mode CameraDenied) w in
     isVisionSync w' = false /\
     error w' =
       Some (js "Neural lens access denied. Please check camera permissions.") /\
     (CameraInv w -> liveStreams w' = [])) /\
  (forall mode o w s, videoMounted w = true -> srcObject w = Some s ->
     forall x, In x (liveStreams (exec (startCamera mode o) w)) ->
       x <> s \/ (o = CameraGranted /\ x = nextStream w)) /\
  (forall m1 o1 m2 o2 w, CameraInv w ->
     (List.length
        (liveStreams (exec (startCamera m2 o2) (exec (startCamera m1 o1) w)))
      <= 1)%nat).
Proof.
  split; [|split; [|split; [|split; [|split]]]].
  - intros es w Hr.
    apply CameraInv_live, (run_keeps_camera es _ _ Hr), mounted_camera.
  - intros es w0 w H Hr.
    pose proof (run_keeps_camera es _ _ Hr H) as H'.
    split; [exact H' | apply CameraInv_live, H'].
  - intros mode w H; apply startCamera_granted, H.
  - intros mode w; destruct (startCamera_denied mode w) as [H1 [H2 H3]].
    repeat split; try assumption. intros H; apply H3, H.
  - intros mode o w s Hm Hs x; apply startCamera_stops; assumption.
  - intros m1 o1 m2 o2 w H.
    apply CameraInv_live, startCamera_keeps, startCamera_keeps, H.
Qed.

(** *** The timer queue *)

Lemma earliest_In ts t : earliest ts = Some t -> In t ts.
Proof.
  revert t; induction ts as [|x ts IH]; simpl; intros t H; [discriminate|].
  destruct (earliest ts) as [u|].
  - destruct (Qle_bool (due x) (due u)); injection H as <-; auto.
  - injection H as <-; auto.
Qed.

Lemma cancel_In h ts t : In t (cancel h ts) -> In t ts /\ handle t <> h.
Proof.
  unfold cancel; rewrite filter_In; intros [H1 H2]; split; [exact H1|].
  intros E; rewrite E, Nat.eqb_refl in H2; discriminate.
Qed.

Lemma cancel_NoDup h ts :
  NoDup (map handle ts) -> NoDup (map handle (cancel h ts)).
Proof.
  induction ts as [|x ts IH]; simpl; intros H; [constructor|].
  inversion H as [|? ? Hx Hts]; subst.
  destruct (negb (Nat.eqb (handle x) h)); simpl; [|auto].
  constructor; [|auto].
  rewrite in_map_iff; intros [y [Hy Hin]]; apply cancel_In in Hin.
  apply Hx; rewrite in_map_iff; exists y; tauto.
Qed.

Lemma cancel_absent h ts :
  ~ In h (map handle ts) -> cancel h ts = ts.
Proof.
  induction ts as [|x ts IH]; simpl; intros H; [reflexivity|].
  destruct (Nat.eqb_spec (handle x) h) as [E | E]; simpl.
  - exfalso; apply H; left; exact E.
  - rewrite IH; [reflexivity | tauto].
Qed.

(** Running a pending timer takes exactly that timer off the queue. *)
Lemma cancel_count (p : Timer -> bool) ts t :
  NoDup (map handle ts) -> In t ts ->
  (List.length (filter p (cancel (handle t) ts)) + (if p t then 1 else 0)
   = List.length (filter p ts))%nat.
Proof.
  induction ts as [|x ts IH]; simpl; intros Hnd Hin; [contradiction|].
  inversion Hnd as [|? ? Hx Hts]; subst.
  destruct Hin as [-> | Hin].
  - rewrite Nat.eqb_refl; simpl.
    rewrite cancel_absent by exact Hx.
    destruct (p t); simpl; lia.
  - destruct (Nat.eqb_spec (handle x) (handle t)) as [E | E]; simpl.
    + exfalso; apply Hx; rewrite E; apply in_map; exact Hin.
    + specialize (IH Hts Hin); destruct (p x); simpl; lia.
Qed.

Lemma cancel_other_count (p : Timer -> bool) h ts :
  (forall t, In t ts -> handle t = h -> p t = false) ->
  List.length (filter p (cancel h ts)) = List.length (filter p ts).
Proof.
  induction ts as [|x ts IH]; simpl; intros H; [reflexivity|].
  destruct (Nat.eqb_spec (handle x) h) as [E | E]; simpl.
  - rewrite (H x (or_introl eq_refl) E); apply IH; auto.
  - destruct (p x); simpl; rewrite IH; auto.
Qed.

Lemma Blinks_queue n w w' : queue w' = queue w -> Blinks n w -> Blinks n w'.
Proof.
  unfold queue, Blinks, QueueOk, blinkTimers; intros H.
  injection H as -> -> ->; auto.
Qed.

(** Setting a timer. *)
Lemma Blinks_push n w w' cb d :
  Blinks n w ->
  timers w' =
    timers w ++ [{| handle := nextHandle w; due := d; callback := cb |}] ->
  nextHandle w' = S (nextHandle w) ->
  (actionTimeout w' = actionTimeout w \/
   isBlink cb = false /\
   exists k, actionTimeout w' = (k, nextHandle w) :: actionTimeout w) ->
  Blinks (if isBlink cb then S n else n) w'.
Proof.
  intros [[Hnd [Hlt Hvar]] Hn] Ht Hh Hv.
  unfold Blinks, QueueOk, blinkTimers; rewrite Ht, Hh.
  split; [split; [|split]|].
  - rewrite map_app; apply NoDup_app;
      [exact Hnd | repeat constructor; simpl; tauto |].
    intros a Ha [<- | []]; simpl in Ha.
    apply in_map_iff in Ha; destruct Ha as [t [E Hin]].
    apply Hlt in Hin; lia.
  - intros t Hin; apply in_app_or in Hin; destruct Hin as [Hin | [<- | []]].
    + apply Hlt in Hin; lia.
    + simpl; lia.
  - intros k h Hin.
    assert (Hold : In (k, h) (actionTimeout w) ->
              (h < S (nextHandle w))%nat /\
              forall t, In t (timers w ++
                 [{| handle := nextHandle w; due := d; callback := cb |}]) ->
                handle t = h -> isBlink (callback t) = false).
    { intros Hin'; destruct (Hvar k h Hin') as [Hb Hnb]; split; [lia|].
      intros t Ht' E; apply in_app_or in Ht'; destruct Ht' as [Ht' | [<- | []]].
      - apply Hnb; assumption.
      - simpl in E; lia. }
    destruct Hv as [Hv | [Hcb [k' Hv]]]; rewrite Hv in Hin; [auto|].
    destruct Hin as [E | Hin]; [|auto].
    injection E as <- <-; split; [lia|].
    intros t Ht' E; apply in_app_or in Ht'; destruct Ht' as [Ht' | [<- | []]].
    + apply Hlt in Ht'; lia.
    + exact Hcb.
  - rewrite filter_app, length_app; fold (blinkTimers w); rewrite Hn; simpl.
    destruct (isBlink cb); simpl; lia.
Qed.

(** Running the pending timer [t]. *)
Lemma Blinks_pop n w w' t :
  Blinks n w -> In t (timers w) ->
  timers w' = cancel (handle t) (timers w) ->
  nextHandle w' = nextHandle w -> actionTimeout w' = actionTimeout w ->
  Blinks (if isBlink (callback t) then pred n else n) w'.
Proof.
  intros [[Hnd [Hlt Hvar]] Hn] Hin Ht Hh Hv.
  unfold Blinks, QueueOk, blinkTimers; rewrite Ht, Hh, Hv.
  split; [split; [|split]|].
  - apply cancel_NoDup, Hnd.
  - intros x Hx; apply cancel_In in Hx; apply Hlt; tauto.
  - intros k h Hk; destruct (Hvar k h Hk) as [Hb Hnb]; split; [exact Hb|].
    intros x Hx; apply cancel_In in Hx; apply Hnb; tauto.
  - pose proof (cancel_count (fun t => isBlink (callback t)) _ t Hnd Hin) as Hc.
    fold (blinkTimers w) in Hc; rewrite Hn in Hc.
    destruct (isBlink (callback t)); lia.
Qed.

(** Clearing the timer an [actionTimeout] variable names. *)
Lemma Blinks_clear n w w' k h :
  Blinks n w -> In (k, h) (actionTimeout w) ->
  timers w' = cancel h (timers w) ->
  nextHandle w' = nextHandle w -> actionTimeout w' = actionTimeout w ->
  Blinks n w'.
Proof.
  intros [[Hnd [Hlt Hvar]] Hn] Hin Ht Hh Hv.
  unfold Blinks, QueueOk, blinkTimers; rewrite Ht, Hh, Hv.
  split; [split; [|split]|].
  - apply cancel_NoDup, Hnd.
  - intros x Hx; apply cancel_In in Hx; apply Hlt; tauto.
  - intros k' h' Hk; destruct (Hvar k' h' Hk) as [Hb Hnb]; split; [exact Hb|].
    intros x Hx; apply cancel_In in Hx; apply Hnb; tauto.
  - rewrite cancel_other_count; [exact Hn|].
    intros t Ht' E; destruct (Hvar k h Hin) as [_ Hnb]; auto.
Qed.

Lemma setTimeout_keeps n cb d :
  isBlink cb = false -> keeps (Blinks n) (setTimeout cb d).
Proof.
  intros Hcb w H.
  pose proof (Blinks_push n w (snd (setTimeout cb d w)) cb (now w + d)%Q H
                eq_refl eq_refl (or_introl eq_refl)) as Hp.
  rewrite Hcb in Hp; exact Hp.
Qed.

Lemma scheduleAction_keeps n k : keeps (Blinks n) (scheduleAction random k).
Proof.
  intros w H.
  refine (Blinks_push n w (snd (scheduleAction random k w)) (IdleOuter k) _
            H eq_refl eq_refl _).
  right; split; [reflexivity | exists k; reflexivity].
Qed.

Lemma actionTimeoutOf_In k vars h :
  actionTimeoutOf k vars = Some h -> In (k, h) vars.
Proof.
  induction vars as [|[k' h'] vars IH]; simpl; [discriminate|].
  destruct (Nat.eqb_spec k' k) as [-> | _].
  - intros E; injection E as ->; auto.
  - auto.
Qed.

Lemma idleEffectCleanup_keeps n : keeps (Blinks n) idleEffectCleanup.
Proof.
  intros w H; unfold idleEffectCleanup, bind, gets; simpl.
  destruct (idleCleanup w) as [k|]; [|exact H].
  destruct (actionTimeoutOf k (actionTimeout w)) as [h|] eqn:E; [|exact H].
  apply actionTimeoutOf_In in E.
  exact (Blinks_clear n w (snd (clearTimeout h w)) k h H E
           eq_refl eq_refl eq_refl).
Qed.

Ltac keep_step n :=
  match goal with
  | |- keeps _ (bind _ _) => apply keeps_bind; [|intro]
  | |- keeps _ (ret _) => apply keeps_ret
  | |- keeps _ (gets _) => apply keeps_gets
  | |- keeps _ (when _ _) => apply keeps_when
  | |- keeps _ (if ?b then _ else _) => destruct b
  | |- keeps _ (match ?x with _ => _ end) => destruct x
  | |- keeps _ (scheduleAction _ _) => apply scheduleAction_keeps
  | |- keeps _ idleEffectCleanup => apply idleEffectCleanup_keeps
  | |- keeps _ (setTimeout _ _) => apply setTimeout_keeps; reflexivity
  | |- keeps _ _ =>
      apply (keeps_preserved queue); [apply Blinks_queue | solve [frame]]
  | |- keeps _ ?m => let h := head_of m in unfold h
  end.

Lemma handler_keeps_blinks n e : keeps (Blinks n) (handler e).
Proof. destruct e; simpl handler; repeat keep_step n. Qed.

Lemma commit_keeps_blinks n prev : keeps (Blinks n) (commit prev).
Proof. repeat keep_step n. Qed.

Lemma scheduleBlink_blinks n w :
  Blinks n w -> Blinks (S n) (exec (scheduleBlink random) w).
Proof.
  intros H; unfold scheduleBlink, exec, bind; simpl.
  destruct (Qgt_bool (random (drawn w)) (rnd 0.8)); simpl;
    match goal with
    | |- Blinks _ ?w' =>
        exact (Blinks_push n w w' BlinkOuter _ H eq_refl eq_refl
                 (or_introl eq_refl))
    end.
Qed.

Lemma blinkOuter_blinks n w :
  Blinks n w -> Blinks (S n) (exec (blinkOuter random) w).
Proof.
  intros H.
  exact (Blinks_push n w (exec (blinkOuter random) w) BlinkInner _ H
           eq_refl eq_refl (or_introl eq_refl)).
Qed.

Lemma blinkInner_blinks n w :
  Blinks n w -> Blinks (S n) (exec (blinkInner random) w).
Proof.
  intros H; unfold blinkInner, exec, bind.
  apply scheduleBlink_blinks; revert H; apply Blinks_queue; reflexivity.
Qed.

Lemma runCallback_other n cb :
  isBlink cb = false -> keeps (Blinks n) (runCallback random cb).
Proof. destruct cb; intros H; try discriminate H; simpl; repeat keep_step n. Qed.

(** Every event leaves exactly one timer of the blink loop pending. *)
Lemma step_keeps_blinks e w w' :
  step e w = Some w' -> Blinks 1 w -> Blinks 1 w'.
Proof.
  intros Hstep H.
  assert (Hh : forall x,
            Some (exec (commit w) (exec (handler e) w)) = Some x -> Blinks 1 x).
  { intros x Hx; injection Hx as <-.
    apply commit_keeps_blinks, handler_keeps_blinks, H. }
  destruct e; try (apply Hh; exact Hstep).
  - unfold step in Hstep.
    destruct (earliest (timers w)) as [t|] eqn:Et; [|discriminate].
    injection Hstep as <-.
    apply commit_keeps_blinks.
    apply earliest_In in Et.
    set (w1 := set_timers (cancel (handle t) (timers w)) w).
    set (w2 := if Qle_bool (due t) (now w1) then w1 else set_now (due t) w1).
    assert (H2 : Blinks (if isBlink (callback t) then 0 else 1) w2).
    { apply (Blinks_pop 1 w w2 t H Et); subst w2 w1;
        destruct (Qle_bool _ _); reflexivity. }
    destruct (callback t) as [| |k|k| |] eqn:Ecb; simpl in H2.
    + apply blinkOuter_blinks, H2.
    + apply blinkInner_blinks, H2.
    + apply (runCallback_other 1 (IdleOuter k)); [reflexivity | exact H2].
    + apply (runCallback_other 1 (IdleInner k)); [reflexivity | exact H2].
    + apply (runCallback_other 1 MemoryClear); [reflexivity | exact H2].
    + apply (runCallback_other 1 VisionAttach); [reflexivity | exact H2].
  - unfold step in Hstep; destruct (_ && _); [|discriminate].
    injection Hstep as <-; revert H; apply Blinks_queue; reflexivity.
Qed.

Lemma run_keeps_blinks es : forall w w',
  run es w = Some w' -> Blinks 1 w -> Blinks 1 w'.
Proof.
  induction es as [|e es IH]; simpl; intros w w' Hr H.
  - injection Hr as <-; exact H.
  - destruct (step e w) as [w1|] eqn:E; [|discriminate].
    eapply IH; [exact Hr | eapply step_keeps_blinks; eauto].
Qed.

Lemma mounted_blinks : Blinks 1 (mounted random toLowerCase).
Proof.
  unfold mounted, mount, exec, bind.
  assert (H0 : Blinks 0 initial).
  { split; [split; [constructor | split; [intros t [] | intros k h []]]
           | reflexivity]. }
  apply scheduleBlink_blinks in H0.
  assert (Hk : keeps (Blinks 1)
                 (bind (lipSyncEffect random toLowerCase)
                       (fun _ => idleEffect random))) by repeat keep_step 1.
  apply Hk, H0.
Qed.

Lemma Qgt_bool_true a b : Qgt_bool a b = true <-> b < a.
Proof.
  unfold Qgt_bool; rewrite negb_true_iff; split; intros H.
  - apply Qnot_le_lt; intros Hle; apply Qle_bool_iff in Hle; congruence.
  - destruct (Qle_bool a b) eqn:E; [|reflexivity].
    apply Qle_bool_iff in E; exfalso; exact (Qlt_not_le _ _ H E).
Qed.

Lemma Qgt_bool_false a b : Qgt_bool a b = false <-> a <= b.
Proof.
  unfold Qgt_bool; rewrite negb_false_iff; apply Qle_bool_iff.
Qed.

(** C9, as the code computes it in doubles: the delay before a blink is
    200 ms when the first draw exceeds the double nearest 0.8, which lies
    above 0.8, and otherwise [5000 r + 2500] for a second draw [r], each
    operation rounded, hence in [2500, 7500); a blink lasts [50 r + 100] ms,
    each operation rounded, hence in [100, 150], the upper end included; the
    end of a blink schedules the next one; the blink callbacks commute with
    any change of the session state, and on every page reached from the
    mounted one exactly one timer of the loop is pending. *)
Theorem blink_loop w :
  (forall n, isDouble (random n) = true /\ 0 <= random n < 1) ->
  let r := random (drawn w) in
  (exists delay,
     timers (exec (scheduleBlink random) w) =
       timers w ++
       [{| handle := nextHandle w; due := now w + delay;
           callback := BlinkOuter |}] /\
     (rnd 0.8 < r /\ delay = 200 \/
      r <= rnd 0.8 /\
      delay = rnd (rnd (random (S (drawn w)) * 5000) + 2500) /\
      2500 <= delay < 7500)) /\
  0.8 < rnd 0.8 /\
  (exists duration,
     isBlinking (exec (blinkOuter random) w) = true /\
     timers (exec (blinkOuter random) w) =
       timers w ++
       [{| handle := nextHandle w; due := now w + duration;
           callback := BlinkInner |}] /\
     duration = rnd (rnd (r * 50) + 100) /\ 100 <= duration <= 150) /\
  (isBlinking (exec (blinkInner random) w) = false /\
   exec (blinkInner random) w =
     exec (scheduleBlink random) (set_isBlinking false w)) /\
  (forall s,
     exec (blinkOuter random) (set_status s w) =
       set_status s (exec (blinkOuter random) w) /\
     exec (blinkInner random) (set_status s w) =
       set_status s (exec (blinkInner random) w)) /\
  (forall es w', run es (mounted random toLowerCase) = Some w' ->
     List.length (blinkTimers w') = 1%nat).
Proof.
  intros Hr r; split; [|split; [closed|split; [|split; [|split]]]].
  - unfold scheduleBlink, exec, bind; simpl; fold r.
    destruct (Qgt_bool r (rnd 0.8)) eqn:E; simpl; eexists;
      (split; [reflexivity|]).
    + left; split; [apply Qgt_bool_true, E | reflexivity].
    + right; split; [apply Qgt_bool_false, E | split; [reflexivity|]].
      destruct (Hr (S (drawn w))) as [D [H0 H1]].
      apply blink_delay_range; assumption.
  - exists (rnd (rnd (r * 50) + 100)).
    split; [reflexivity | split; [reflexivity | split; [reflexivity|]]].
    destruct (Hr (drawn w)) as [_ [H0 H1]]; fold r in H0, H1.
    apply blink_duration_range; assumption.
  - split; [|reflexivity].
    unfold blinkInner, scheduleBlink, exec, bind; simpl.
    destruct (Qgt_bool _ _); reflexivity.
  - intros s; split; [reflexivity|].
    unfold blinkInner, scheduleBlink, exec, bind; simpl.
    destruct (Qgt_bool _ _); reflexivity.
  - intros es w' Hrun.
    exact (proj2 (run_keeps_blinks es _ _ Hrun mounted_blinks)).
Qed.

(** X19: the idle loop while it runs, as the code computes it in doubles:
    the delay before a gesture is [8000 r + 4000], each operation rounded,
    hence in [4000, 12000]; the gesture is one of the three; it is held for
    [2000 + 1000 r'] ms, each operation rounded, hence in [2000, 3000],
    before it is reset. Both upper ends are included. *)
Lemma idle_loop_schedule k w :
  (forall n, isDouble (random n) = true /\ 0 <= random n < 1) ->
  (exists delay,
     timers (exec (scheduleAction random k) w) =
       timers w ++
       [{| handle := nextHandle w; due := now w + delay;
           callback := IdleOuter k |}] /\
     delay = rnd (rnd (random (drawn w) * 8000) + 4000) /\
     4000 <= delay <= 12000) /\
  (exists hold,
     In (idleAction (exec (idleOuter random k) w)) actions /\
     timers (exec (idleOuter random k) w) =
       timers w ++
       [{| handle := nextHandle w; due := now w + hold;
           callback := IdleInner k |}] /\
     hold = rnd (2000 + rnd (random (S (drawn w)) * 1000)) /\
     2000 <= hold <= 3000) /\
  idleAction (exec (idleInner random k) w) = ActNone.
Proof.
  intros Hr; split; [|split; [|reflexivity]].
  - exists (rnd (rnd (random (drawn w) * 8000) + 4000)).
    split; [reflexivity | split; [reflexivity|]].
    destruct (Hr (drawn w)) as [_ [H0 H1]].
    apply gesture_delay_range; assumption.
  - exists (rnd (2000 + rnd (random (S (drawn w)) * 1000))).
    split; [|split; [reflexivity | split; [reflexivity|]]].
    + destruct (Hr (drawn w)) as [D [H0 H1]].
      destruct (gesture_index _ D H0 H1) as [E | [E | E]];
        change (idleAction (exec (idleOuter random k) w))
          with (nth (Z.to_nat (Qfloor (rnd (random (drawn w) * 3)))) actions
                  ActNone);
        rewrite E; simpl; auto.
    + destruct (Hr (S (drawn w))) as [_ [H0 H1]].
      apply gesture_hold_range; assumption.
Qed.

(** ** The view *)

Lemma distortion_range level :
  rnd 0.1 < level ->
  30 <= rnd (20 + rnd (level * 100)) /\
  (level <= 1 -> rnd (20 + rnd (level * 100)) <= 120).
Proof.
  intros H.
  assert (T : 0.1 < rnd 0.1) by closed.
  assert (D0 : isDouble 10 = true) by closed.
  assert (D1 : isDouble 100 = true) by closed.
  assert (D2 : isDouble 30 = true) by closed.
  assert (D3 : isDouble 120 = true) by closed.
  set (c := rnd 0.1) in *; clearbody c.
  assert (A : 10 <= rnd (level * 100)) by (apply rnd_ge; [lra | lra | exact D0]).
  split.
  - apply rnd_ge; [lra | lra | exact D2].
  - intros H1.
    assert (B : rnd (level * 100) <= 100)
      by (apply rnd_le; [lra | lra | exact D1]).
    apply rnd_le; [lra | lra | exact D3].
Qed.

(** X1: the distortion amount, as the code computes it in doubles, is 0
    while idle, 10 while listening, and while speaking either 0 (audio level
    at most the double nearest 0.1) or [20 + 100 level], each operation
    rounded, which is at least 30; with an audio level of at most 1 it never
    exceeds 120. So it is never strictly between 10 and 30. *)
Theorem distortion_levels w :
  (status w = Idle -> distortionValue w = 0) /\
  (status w = Listening -> distortionValue w = 10) /\
  (status w = Speaking ->
   (audioLevel w <= rnd 0.1 /\ distortionValue w = 0) \/
   (rnd 0.1 < audioLevel w /\ 30 <= distortionValue w /\
    distortionValue w = rnd (20 + rnd (audioLevel w * 100)))) /\
  (audioLevel w <= 1 -> 0 <= distortionValue w <= 120) /\
  ~ (10 < distortionValue w /\ distortionValue w < 30).
Proof.
  unfold distortionValue; split; [|split; [|split; [|split]]].
  - intros ->; reflexivity.
  - intros ->; reflexivity.
  - intros ->; cbn [Status_eqb andb].
    destruct (Qgt_bool (audioLevel w) (rnd 0.1)) eqn:E.
    + apply Qgt_bool_true in E; right; split; [exact E|].
      split; [apply distortion_range, E | reflexivity].
    + apply Qgt_bool_false in E; left; split; [exact E | reflexivity].
  - intros H.
    destruct (Status_eqb (status w) Speaking
              && Qgt_bool (audioLevel w) (rnd 0.1)) eqn:E.
    + apply andb_true_iff in E; destruct E as [_ E].
      apply Qgt_bool_true in E.
      destruct (distortion_range _ E) as [A B]; specialize (B H); lra.
    + destruct (Status_eqb (status w) Listening); lra.
  - destruct (Status_eqb (status w) Speaking
              && Qgt_bool (audioLevel w) (rnd 0.1)) eqn:E.
    + apply andb_true_iff in E; destruct E as [_ E].
      apply Qgt_bool_true in E.
      destruct (distortion_range _ E) as [A _]; lra.
    + destruct (Status_eqb (status w) Listening); lra.
Qed.

(** X3: an idle gesture shows in the pose exactly while the avatar is not
    speaking: while speaking the pose is the same whatever the gesture, and
    otherwise each of glance, tilt and shift gives a pose other than the
    resting one. *)
Theorem gesture_visible w g :
  (status w = Speaking ->
   avatarPose (set_idleAction g w) = avatarPose w) /\
  (status w <> Speaking -> g <> ActNone ->
   avatarPose (set_idleAction g w) <> avatarPose (set_idleAction ActNone w)).
Proof.
  split.
  - intros Hs; unfold avatarPose; simpl; rewrite Hs; reflexivity.
  - intros Hs Hg H.
    assert (Hn : Status_eqb (status w) Speaking = false)
      by (destruct (status w); try reflexivity; congruence).
    destruct g; [congruence | | |].
    + apply (f_equal pose_skewY) in H; simpl in H; rewrite Hn in H.
      discriminate H.
    + apply (f_equal pose_rotate) in H; simpl in H; rewrite Hn in H.
      discriminate H.
    + apply (f_equal pose_skewX) in H; simpl in H; rewrite Hn in H.
      discriminate H.
Qed.

(** ** What an event can change *)

(** A state cell that neither rendering nor timers touch is, after an
    event, what the event's handler made it. *)
Lemma step_view {V : Type} (f : World -> V) e w w' :
  (forall prev, preserves f (commit prev)) ->
  (forall cb, preserves f (runCallback random cb)) ->
  (forall ts x, f (set_timers ts x) = f x) ->
  (forall t x, f (set_now t x) = f x) ->
  step e w = Some w' -> f w' = f (exec (handler e) w).
Proof.
  intros Hc Hcb Hts Hnow Hstep.
  assert (Hh : forall x,
            Some (exec (commit w) (exec (handler e) w)) = Some x ->
            f x = f (exec (handler e) w)).
  { intros x Hx; injection Hx as <-; apply Hc. }
  destruct e; try (apply Hh; exact Hstep).
  - unfold step in Hstep.
    destruct (earliest (timers w)) as [t|]; [|discriminate].
    injection Hstep as <-.
    unfold exec; rewrite Hc, Hcb.
    destruct (Qle_bool _ _); rewrite ?Hnow, Hts; reflexivity.
  - unfold step in Hstep; destruct (_ && _); [|discriminate].
    injection Hstep as <-; apply Hnow.
Qed.

(** Progress reports change the progress text and nothing else. *)
Lemma progress_preserves {V : Type} (f : World -> V) (l : list jsstring) :
  (forall v x, f (set_animationStatus v x) = f x) ->
  preserves f (forEach l setAnimationStatus).
Proof.
  intros H; apply preserves_forEach; intros a x; apply H.
Qed.

Lemma messageIs_eq message s :
  messageIs message s = true -> message = Some (js s).
Proof.
  unfold messageIs; destruct message as [m|]; simpl; [|discriminate].
  intros H; apply jsstring_eqb_eq in H; congruence.
Qed.

(** X4: the request for an API key is withdrawn by one event only, the
    [onSelect] of the key prompt, and raised by three: the auth check
    started on mount finding no key selected, an error callback whose
    message contains [Model access denied] or [Quota exhausted], and an
    animation that fails with [API_KEY_PERMISSION_DENIED], [API_KEY_EXPIRED]
    or [QUOTA_EXHAUSTED]. No other event changes it. *)
Theorem api_key_request e w w' :
  step e w = Some w' ->
  (e = SelectKey -> needsApiKey w' = false) /\
  (e = AuthChecked NoKey -> needsApiKey w' = true) /\
  (needsApiKey w = true -> needsApiKey w' = false -> e = SelectKey) /\
  (needsApiKey w = false -> needsApiKey w' = true ->
   e = AuthChecked NoKey \/
   (exists msg,
      e = ServiceError msg /\
      includes (js "Model access denied") msg
      || includes (js "Quota exhausted") msg = true) \/
   (exists progress m,
      e = ClickAnimate progress (AnimateThrows (ThrownValue (Some m))) /\
      isAnimating w = false /\
      In m [js "API_KEY_PERMISSION_DENIED"; js "API_KEY_EXPIRED";
            js "QUOTA_EXHAUSTED"])).
Proof.
  intros Hstep.
  rewrite (step_view needsApiKey e w w'); try exact Hstep;
    try (intros; reflexivity);
    [| intros prev; frame | intros cb; destruct cb; simpl; frame].
  set (Why := fun e0 =>
         e0 = AuthChecked NoKey \/
         (exists msg,
            e0 = ServiceError msg /\
            includes (js "Model access denied") msg
            || includes (js "Quota exhausted") msg = true) \/
         (exists progress m,
            e0 = ClickAnimate progress (AnimateThrows (ThrownValue (Some m))) /\
            isAnimating w = false /\
            In m [js "API_KEY_PERMISSION_DENIED"; js "API_KEY_EXPIRED";
                  js "QUOTA_EXHAUSTED"])).
  match goal with
  | |- ?A /\ ?B /\ ?C /\ (?D -> ?E -> _) =>
      change (A /\ B /\ C /\ (D -> E -> Why e))
  end.
  assert (Hsame : forall v : bool,
            v = needsApiKey w -> e <> SelectKey -> e <> AuthChecked NoKey ->
            (e = SelectKey -> v = false) /\
            (e = AuthChecked NoKey -> v = true) /\
            (needsApiKey w = true -> v = false -> e = SelectKey) /\
            (needsApiKey w = false -> v = true -> Why e)).
  { intros v -> H1 H2.
    split; [contradiction | split; [contradiction | split; congruence]]. }
  assert (Hraised : forall v : bool,
            v = true -> e <> SelectKey -> Why e ->
            (e = SelectKey -> v = false) /\
            (e = AuthChecked NoKey -> v = true) /\
            (needsApiKey w = true -> v = false -> e = SelectKey) /\
            (needsApiKey w = false -> v = true -> Why e)).
  { intros v -> Hne Hwhy.
    split; [contradiction | split; [reflexivity | split; [discriminate|]]].
    intros _ _; exact Hwhy. }
  destruct e; simpl handler;
    try (apply Hsame; [|discriminate..];
         match goal with
         | |- needsApiKey (exec ?m w) = _ =>
             let P := fresh in
             assert (P : preserves needsApiKey m) by solve [frame];
             apply P
         end).
  - (* error callback *)
    destruct (includes (js "Model access denied") msg
              || includes (js "Quota exhausted") msg) eqn:E.
    + apply Hraised; [|discriminate | unfold Why; right; left; exists msg; auto].
      unfold onError, exec, bind, when; simpl; rewrite E; reflexivity.
    + apply Hsame; [|discriminate..].
      unfold onError, exec, bind, when; simpl; rewrite E; reflexivity.
  - (* animation *)
    pose proof (progress_preserves needsApiKey progress
                  (fun _ _ => eq_refl)) as Hf.
    unfold preserves in Hf.
    destruct (isAnimating w) eqn:Eb.
    { apply Hsame; [|discriminate..].
      unfold handleAnimate, exec, bind, gets; simpl; rewrite Eb; reflexivity. }
    destruct o as [url | [message |]].
    + apply Hsame; [|discriminate..].
      unfold handleAnimate, exec, bind, gets; simpl; rewrite Eb; simpl.
      rewrite Hf; reflexivity.
    + destruct (messageIs message "API_KEY_PERMISSION_DENIED") eqn:E1.
      { apply Hraised; [|discriminate|].
        - unfold handleAnimate, exec, bind, gets; simpl; rewrite Eb; simpl.
          rewrite E1; reflexivity.
        - apply messageIs_eq in E1; subst message.
          unfold Why; right; right; eexists _, _.
          split; [reflexivity | split; [reflexivity | simpl; auto]]. }
      destruct (messageIs message "API_KEY_EXPIRED") eqn:E2.
      { apply Hraised; [|discriminate|].
        - unfold handleAnimate, exec, bind, gets; simpl; rewrite Eb; simpl.
          rewrite E1, E2; reflexivity.
        - apply messageIs_eq in E2; subst message.
          unfold Why; right; right; eexists _, _.
          split; [reflexivity | split; [reflexivity | simpl; auto]]. }
      destruct (messageIs message "SERVICE_UNAVAILABLE") eqn:E3.
      { apply Hsame; [|discriminate..].
        unfold handleAnimate, exec, bind, gets; simpl; rewrite Eb; simpl.
        rewrite E1, E2, E3; simpl; rewrite Hf; reflexivity. }
      destruct (messageIs message "QUOTA_EXHAUSTED") eqn:E4.
      { apply Hraised; [|discriminate|].
        - unfold handleAnimate, exec, bind, gets; simpl; rewrite Eb; simpl.
          rewrite E1, E2, E3, E4; reflexivity.
        - apply messageIs_eq in E4; subst message.
          unfold Why; right; right; eexists _, _.
          split; [reflexivity | split; [reflexivity | simpl; auto]]. }
      apply Hsame; [|discriminate..].
      unfold handleAnimate, exec, bind, gets; simpl; rewrite Eb; simpl.
      rewrite E1, E2, E3, E4; simpl; rewrite Hf; reflexivity.
    + apply Hsame; [|discriminate..].
      unfold handleAnimate, exec, bind, gets; simpl; rewrite Eb; simpl.
      rewrite Hf; reflexivity.
  - (* auth check *)
    destruct o.
    + apply Hsame; [reflexivity | discriminate..].
    + apply Hraised; [reflexivity | discriminate | unfold Why; left; reflexivity].
    + apply Hsame; [reflexivity | discriminate..].
  - (* key prompt *)
    split; [reflexivity | split; [discriminate | split; [reflexivity|]]].
    discriminate.
Qed.

(** What an animation request not refused as busy does to the video. *)
Lemma animate_outcomes_video progress o w :
  isAnimating w = false ->
  (forall err, o = AnimateThrows err ->
     videoUrl (exec (handleAnimate progress o) w) = videoUrl w) /\
  (forall url, o = AnimateOk url ->
     videoUrl (exec (handleAnimate progress o) w) = Some url).
Proof.
  intros Hb.
  pose proof (progress_preserves videoUrl progress (fun _ _ => eq_refl)) as Hv.
  unfold preserves in Hv.
  unfold handleAnimate, exec, bind, gets; simpl; rewrite Hb.
  split.
  - intros err ->; destruct err as [message|]; simpl;
      [|rewrite Hv; reflexivity].
    destruct (_ || _); simpl; [rewrite Hv; reflexivity|].
    destruct (messageIs message "SERVICE_UNAVAILABLE"); simpl;
      [rewrite Hv; reflexivity|].
    destruct (messageIs message "QUOTA_EXHAUSTED"); simpl; rewrite Hv;
      reflexivity.
  - intros url ->; reflexivity.
Qed.

(** X5: an animation request made while none is in flight keeps the
    previous video when it fails and removes any earlier error message when
    it succeeds; a failure whose message can be read leaves no error
    message exactly when it is a credential failure (permission denied or
    expired key), and a thrown [null] leaves neither a message nor a key
    request. *)
Theorem animate_outcomes progress o w :
  isAnimating w = false ->
  let w' := exec (handleAnimate progress o) w in
  (forall err, o = AnimateThrows err -> videoUrl w' = videoUrl w) /\
  (forall url, o = AnimateOk url ->
     error w' = None /\ needsApiKey w' = needsApiKey w) /\
  (forall message, o = AnimateThrows (ThrownValue message) ->
     (error w' = None <->
      message = Some (js "API_KEY_PERMISSION_DENIED") \/
      message = Some (js "API_KEY_EXPIRED"))) /\
  (o = AnimateThrows ThrownNullish ->
     error w' = None /\ needsApiKey w' = needsApiKey w).
Proof.
  intros Hb w'; subst w'.
  pose proof (progress_preserves error progress (fun _ _ => eq_refl)) as He.
  pose proof (progress_preserves needsApiKey progress (fun _ _ => eq_refl))
    as Hk.
  unfold preserves in He, Hk.
  split; [|unfold handleAnimate, exec, bind, gets; simpl; rewrite Hb;
           split; [|split]].
  - intros err Ho.
    exact (proj1 (animate_outcomes_video progress o w Hb) err Ho).
  - intros url ->; simpl; rewrite He, Hk; split; reflexivity.
  - intros message ->; simpl.
    destruct (messageIs message "API_KEY_PERMISSION_DENIED") eqn:E1; simpl.
    { rewrite He; simpl; apply messageIs_eq in E1; tauto. }
    destruct (messageIs message "API_KEY_EXPIRED") eqn:E2; simpl.
    { rewrite He; simpl; apply messageIs_eq in E2; tauto. }
    assert (Hneq : ~ (message = Some (js "API_KEY_PERMISSION_DENIED") \/
                      message = Some (js "API_KEY_EXPIRED"))).
    { intros [-> | ->]; [vm_compute in E1 | vm_compute in E2]; discriminate. }
    destruct (messageIs message "SERVICE_UNAVAILABLE"); simpl;
      [split; [discriminate | tauto]|].
    destruct (messageIs message "QUOTA_EXHAUSTED"); simpl;
      (split; [discriminate | tauto]).
  - intros ->; simpl; rewrite He, Hk; split; reflexivity.
Qed.

(** X6: the stored video URL changes through one event only, an animation
    request that was not refused as busy and succeeded; no other event sets,
    replaces or removes it. *)
Theorem video_url_changes e w w' :
  step e w = Some w' ->
  videoUrl w' = videoUrl w \/
  exists progress url,
    e = ClickAnimate progress (AnimateOk url) /\
    isAnimating w = false /\ videoUrl w' = Some url.
Proof.
  intros Hstep.
  rewrite (step_view videoUrl e w w'); try exact Hstep;
    try (intros; reflexivity);
    [| intros prev; frame | intros cb; destruct cb; simpl; frame].
  destruct e; simpl handler;
    try (left;
         match goal with
         | |- videoUrl (exec ?m w) = _ =>
             assert (Hp : preserves videoUrl m) by frame; apply Hp
         end).
  destruct (isAnimating w) eqn:Hb.
  - left; unfold handleAnimate, exec, bind, gets; simpl; rewrite Hb.
    reflexivity.
  - destruct (animate_outcomes_video progress o w Hb) as [Hfail Hok].
    destruct o as [url | err].
    + right; exists progress, url; auto.
    + left; apply (Hfail err); reflexivity.
Qed.

(** ** Camera *)

(** Stopping the bound stream's tracks changes which streams run and
    nothing else. *)
Lemma stopBoundTracks_rest :
  preserves
    (fun w => (facingMode w, videoMounted w, isVisionSync w, status w,
               timers w, nextHandle w, now w, calls w, error w, srcObject w,
               nextStream w))
    stopBoundTracks.
Proof. frame. Qed.

Ltac stopped w :=
  let H := fresh "Hrest" in
  pose proof (stopBoundTracks_rest w) as H; simpl in H;
  injection H as Hfacing Hmounted Hvision Hstatus Htimers Hhandle Hnow
    Hcalls Herror Hsrc Hnext.

Lemma startCamera_facing mode o w :
  facingMode (exec (startCamera mode o) w) =
  match o with
  | CameraGranted => if videoMounted w then mode else facingMode w
  | CameraDenied => facingMode w
  end.
Proof.
  stopped w.
  unfold startCamera, exec, bind, gets, when; destruct o; simpl;
    [|assumption].
  rewrite Hmounted.
  destruct (videoMounted w); simpl; [|assumption].
  destruct (isConnected _); reflexivity.
Qed.

Lemma handler_facing e w :
  facingMode (exec (handler e) w) =
  match e with
  | ClickSwitchCamera CameraGranted =>
      if videoMounted w then otherCamera (facingMode w) else facingMode w
  | _ => facingMode w
  end.
Proof.
  destruct e; simpl handler;
    try (match goal with
         | |- facingMode (exec ?m w) = _ =>
             assert (Hp : preserves facingMode m) by frame; apply Hp
         end).
  - (* toggleVision *)
    pose proof (startCamera_facing (facingMode w) o w) as Hs.
    unfold toggleVision, exec, bind, gets in *; cbn [fst snd].
    destruct (isVisionSync w); simpl.
    + destruct (videoMounted w), (srcObject w); reflexivity.
    + rewrite Hs; destruct o; [destruct (videoMounted w)|]; reflexivity.
  - (* switchCamera *)
    pose proof (startCamera_facing (otherCamera (facingMode w)) o w) as Hs.
    unfold switchCamera, exec, bind, gets in *; cbn [fst snd].
    unfold otherCamera in Hs; rewrite Hs; destruct o; reflexivity.
Qed.

(** [startCamera] run in one piece is its two parts back to back. *)
Lemma startCamera_split mode o w :
  exec (startCamera mode o) w =
  exec (startCameraSettle mode (isConnected w) o) (exec startCameraRequest w).
Proof.
  stopped w.
  unfold startCamera, startCameraSettle, startCameraRequest, exec, bind, gets,
    when, isConnected; destruct o; simpl; [|reflexivity].
  rewrite Hmounted.
  destruct (videoMounted w); simpl; [|reflexivity].
  rewrite Hstatus; reflexivity.
Qed.

Lemma startCameraSettle_facing mode c o w :
  facingMode (exec (startCameraSettle mode c o) w) =
  match o with
  | CameraGranted => if videoMounted w then mode else facingMode w
  | CameraDenied => facingMode w
  end.
Proof.
  unfold startCameraSettle, exec, bind, gets, when; destruct o; simpl;
    [|reflexivity].
  destruct (videoMounted w); simpl; [|reflexivity].
  destruct c; reflexivity.
Qed.

(** X7: the facing mode is written by one thing only, a camera request that
    is granted while the video element is present, and it becomes the mode
    the request was made with: for [switchCamera] the other camera than the
    one of the page the button was clicked on. So a switch made after the
    previous one has settled brings the first camera back; but of two
    switches clicked before the first one settles both ask for the same
    camera, and the page ends on that one, not on the first. *)
Theorem facing_mode_changes mode c o w :
  videoMounted w = true ->
  facingMode (exec startCameraRequest w) = facingMode w /\
  facingMode (exec (startCameraSettle mode c o) w) =
    match o with
    | CameraGranted => mode
    | CameraDenied => facingMode w
    end /\
  facingMode (exec (switchCamera CameraGranted) w) =
    otherCamera (facingMode w) /\
  facingMode
    (exec (switchCamera CameraGranted) (exec (switchCamera CameraGranted) w))
  = facingMode w /\
  facingMode
    (exec (startCameraSettle (otherCamera (facingMode w)) c CameraGranted)
       (exec (startCameraSettle (otherCamera (facingMode w)) c CameraGranted)
          (exec startCameraRequest (exec startCameraRequest w))))
  = otherCamera (facingMode w).
Proof.
  intros Hm.
  assert (Hreq : forall x,
            facingMode (exec startCameraRequest x) = facingMode x /\
            videoMounted (exec startCameraRequest x) = videoMounted x).
  { intros x; stopped x; split; assumption. }
  assert (Hmounted' : forall m0 c0 o0 x,
            videoMounted (exec (startCameraSettle m0 c0 o0) x) = videoMounted x).
  { intros m0 c0 o0 x.
    assert (Hp : preserves videoMounted (startCameraSettle m0 c0 o0)) by frame.
    apply Hp. }
  assert (Hsw : forall x, videoMounted x = true ->
            facingMode (exec (switchCamera CameraGranted) x) =
              otherCamera (facingMode x) /\
            videoMounted (exec (switchCamera CameraGranted) x) = true).
  { intros x Hx.
    pose proof (handler_facing (ClickSwitchCamera CameraGranted) x) as Hf.
    simpl handler in Hf; rewrite Hx in Hf; split; [exact Hf|].
    assert (Hp : preserves videoMounted (switchCamera CameraGranted)) by frame.
    unfold exec; rewrite Hp; exact Hx. }
  split; [apply Hreq|].
  split; [rewrite startCameraSettle_facing, Hm; reflexivity|].
  destruct (Hsw w Hm) as [H1 Hm1].
  split; [exact H1|].
  split.
  - destruct (Hsw _ Hm1) as [H2 _]; rewrite H2, H1.
    destruct (facingMode w); reflexivity.
  - rewrite startCameraSettle_facing, Hmounted'.
    destruct (Hreq (exec startCameraRequest w)) as [_ Hv2].
    destruct (Hreq w) as [_ Hv1].
    rewrite Hv2, Hv1, Hm; reflexivity.
Qed.

(** X8: a refused camera request is not reported to the session
    collaborator: no [setVision] call is made and no timer is set, and the
    video element keeps the stream it had, although that stream's tracks
    were stopped and vision now shows as disengaged. *)
Theorem camera_denied_not_detached mode w :
  let w' := exec (startCamera mode CameraDenied) w in
  calls w' = calls w /\ timers w' = timers w /\
  srcObject w' = srcObject w /\ facingMode w' = facingMode w /\
  isVisionSync w' = false /\
  (videoMounted w = true -> forall s, srcObject w = Some s ->
   ~ In s (liveStreams w')).
Proof.
  stopped w.
  unfold startCamera, exec, bind in *; simpl.
  repeat split; try assumption.
  intros Hm s Hs Hin.
  unfold stopBoundTracks, bind, gets in Hin; simpl in Hin.
  rewrite Hm, Hs in Hin; simpl in Hin.
  apply filter_In in Hin; destruct Hin as [_ Hin].
  rewrite Nat.eqb_refl in Hin; discriminate.
Qed.

(** What a granted camera request does to the call log and the timers. *)
Lemma startCamera_granted_queue mode w :
  videoMounted w = true ->
  let w' := exec (startCamera mode CameraGranted) w in
  calls w' = calls w /\
  (status w = Idle -> timers w' = timers w) /\
  (status w <> Idle ->
   timers w' =
     timers w ++
     [{| handle := nextHandle w; due := now w + 500;
         callback := VisionAttach |}]) /\
  (forall x,
     calls (exec (runCallback random VisionAttach) x) =
     calls x ++ [SvcSetVision (videoMounted x)]).
Proof.
  intros Hm; stopped w.
  unfold startCamera, exec, bind, gets, when, isConnected; simpl.
  rewrite Hmounted, Hm; simpl; rewrite Hstatus.
  split; [destruct (status w); simpl; assumption|].
  split; [intros ->; simpl; assumption|].
  split; [|reflexivity].
  intros Hs; destruct (status w); [congruence | |]; simpl;
    rewrite Htimers, Hhandle, Hnow; reflexivity.
Qed.

(** X9: a granted camera request never calls the collaborator at once.
    While the session is connected it sets one timer, due 500 ms later, whose
    callback hands the video element to the collaborator; while the session
    is idle it sets no timer at all. *)
Theorem vision_attach_deferred mode w :
  videoMounted w = true ->
  let w' := exec (startCamera mode CameraGranted) w in
  calls w' = calls w /\
  (status w = Idle -> timers w' = timers w) /\
  (status w <> Idle ->
   timers w' =
     timers w ++
     [{| handle := nextHandle w; due := now w + 500;
         callback := VisionAttach |}]) /\
  (forall x,
     calls (exec (runCallback random VisionAttach) x) =
     calls x ++ [SvcSetVision (videoMounted x)]).
Proof. exact (startCamera_granted_queue mode w). Qed.

Lemma toggleVision_off o w :
  CameraInv w -> isVisionSync w = true ->
  let w' := exec (toggleVision o) w in
  isVisionSync w' = false /\ liveStreams w' = [] /\
  calls w' = calls w ++ [SvcSetVision false] /\
  timers w' = timers w /\ facingMode w' = facingMode w /\
  (srcObject w' = None \/ liveStreams w = [] /\ srcObject w = None).
Proof.
  intros [Hm Hl] Hv; unfold toggleVision, exec, bind, gets; simpl.
  rewrite Hv; simpl; rewrite Hm.
  destruct Hl as [Hl | [s [Hl Hs]]].
  - destruct (srcObject w) eqn:Es; simpl; rewrite ?Hl; repeat split; auto.
  - rewrite Hs; simpl; rewrite Hl; simpl; rewrite Nat.eqb_refl.
    repeat split; auto.
Qed.

(** X10: turning vision on and off again releases the camera: the stream
    acquired is the only one running in between, and afterwards no stream
    runs, the video element holds none, the facing mode is as before and the
    collaborator was told once to drop its vision source. The timer set when
    vision went on during a connected session is not cancelled by turning
    vision off. *)
Theorem vision_round_trip o w :
  CameraInv w -> isVisionSync w = false ->
  exists w1 w2,
    step (ClickVision CameraGranted) w = Some w1 /\
    step (ClickVision o) w1 = Some w2 /\
    isVisionSync w1 = true /\ liveStreams w1 = [nextStream w] /\
    isVisionSync w2 = false /\ liveStreams w2 = [] /\ srcObject w2 = None /\
    facingMode w2 = facingMode w /\
    calls w2 = calls w ++ [SvcSetVision false] /\
    (status w <> Idle ->
     In {| handle := nextHandle w; due := now w + 500;
           callback := VisionAttach |} (timers w2)).
Proof.
  intros Hinv Hv.
  assert (Hq : forall o0 x,
            step (ClickVision o0) x = Some (exec (toggleVision o0) x)).
  { intros o0 x; apply (step_quiet (ClickVision o0)); try discriminate.
    simpl; frame. }
  assert (H1 : exec (toggleVision CameraGranted) w =
               exec (startCamera (facingMode w) CameraGranted) w).
  { unfold toggleVision, exec, bind, gets; simpl; rewrite Hv; reflexivity. }
  exists (exec (toggleVision CameraGranted) w).
  exists (exec (toggleVision o)
            (exec (toggleVision CameraGranted) w)).
  rewrite !Hq; split; [reflexivity | split; [reflexivity|]].
  rewrite H1.
  destruct (startCamera_granted (facingMode w) w Hinv)
    as [Hm [Hl [Hs [Hvs Hf]]]].
  pose proof (startCamera_keeps (facingMode w) CameraGranted w Hinv) as Hinv1.
  destruct Hinv as [Hmw _].
  destruct (startCamera_granted_queue (facingMode w) w Hmw)
    as [Hc [_ [Ht _]]].
  destruct (toggleVision_off o _ Hinv1 Hvs) as [Hv2 [Hl2 [Hc2 [Ht2 [Hf2 Hs2]]]]].
  unfold exec in *.
  split; [exact Hvs | split; [exact Hl | split; [exact Hv2 |]]].
  split; [exact Hl2 | split; [|split; [|split]]].
  - destruct Hs2 as [Hs2 | [Hs2 _]]; [exact Hs2|].
    rewrite Hl in Hs2; discriminate.
  - rewrite Hf2; exact Hf.
  - rewrite Hc2, Hc; reflexivity.
  - intros Hst; rewrite Ht2, (Ht Hst); apply in_or_app; right; left.
    reflexivity.
Qed.

(** ** Invariants of the session *)

(** An invariant kept by every handler, by rendering and by every timer
    callback, and blind to the clock and the timer queue, holds along every
    run. *)
Lemma step_keeps (I : World -> Prop) e w w' :
  (forall e0, keeps I (handler e0)) ->
  (forall prev, keeps I (commit prev)) ->
  (forall cb, keeps I (runCallback random cb)) ->
  (forall ts x, I x -> I (set_timers ts x)) ->
  (forall t x, I x -> I (set_now t x)) ->
  step e w = Some w' -> I w -> I w'.
Proof.
  intros Hh Hc Hcb Hts Hnow Hstep H.
  assert (Hx : forall x,
            Some (exec (commit w) (exec (handler e) w)) = Some x -> I x).
  { intros x Hx; injection Hx as <-; apply Hc, Hh, H. }
  destruct e; try (apply Hx; exact Hstep).
  - unfold step in Hstep.
    destruct (earliest (timers w)) as [t|]; [|discriminate].
    injection Hstep as <-.
    apply Hc, Hcb; destruct (Qle_bool _ _); auto.
  - unfold step in Hstep; destruct (_ && _); [|discriminate].
    injection Hstep as <-; auto.
Qed.

Lemma run_keeps (I : World -> Prop) es :
  (forall e0, keeps I (handler e0)) ->
  (forall prev, keeps I (commit prev)) ->
  (forall cb, keeps I (runCallback random cb)) ->
  (forall ts x, I x -> I (set_timers ts x)) ->
  (forall t x, I x -> I (set_now t x)) ->
  forall w w', run es w = Some w' -> I w -> I w'.
Proof.
  intros Hh Hc Hcb Hts Hnow.
  induction es as [|e es IH]; simpl; intros w w' Hr H.
  - injection Hr as <-; exact H.
  - destruct (step e w) as [w1|] eqn:E; [|discriminate].
    eapply IH; [exact Hr | eapply step_keeps; eauto].
Qed.

Lemma nonEmpty_trim text :
  nonEmpty (trim text) = true <-> forallb isWhiteSpace text = false.
Proof.
  destruct (trim text) as [|c r] eqn:Et; simpl.
  - apply trim_nil in Et; rewrite Et; split; discriminate.
  - destruct (forallb isWhiteSpace text) eqn:E; [|tauto].
    apply trim_nil in E; congruence.
Qed.

Lemma SendsInv_calls old w w' :
  calls w' = calls w -> SendsInv old w -> SendsInv old w'.
Proof. unfold SendsInv; intros ->; auto. Qed.

Lemma call_keeps_sends old c :
  (forall text, c = SvcSend text -> forallb isWhiteSpace text = false) ->
  keeps (SendsInv old) (call c).
Proof.
  intros Hc w H text Hin; simpl in Hin.
  apply in_app_or in Hin; destruct Hin as [Hin | [-> | []]]; auto.
Qed.

Lemma handleSendMessage_keeps_sends old o :
  keeps (SendsInv old) (handleSendMessage o).
Proof.
  intros w H; unfold handleSendMessage, bind, gets; simpl.
  destruct (nonEmpty (trim (textInput w))) eqn:E; simpl; [|exact H].
  destruct (negb (isConnected w)); simpl; [exact H|].
  apply nonEmpty_trim in E.
  assert (H' : SendsInv old
                 (snd (call (SvcSend (textInput w))
                         (set_astraResponse None (set_isTyping true w))))).
  { apply call_keeps_sends; [intros text Ht; congruence|].
    revert H; apply SendsInv_calls; reflexivity. }
  destruct o; revert H'; apply SendsInv_calls; reflexivity.
Qed.

Ltac sends_step old :=
  match goal with
  | |- keeps _ (bind _ _) => apply keeps_bind; [|intro]
  | |- keeps _ (ret _) => apply keeps_ret
  | |- keeps _ (gets _) => apply keeps_gets
  | |- keeps _ (when _ _) => apply keeps_when
  | |- keeps _ (if ?b then _ else _) => destruct b
  | |- keeps _ (match ?x with _ => _ end) => destruct x
  | |- keeps _ (handleSendMessage _) => apply handleSendMessage_keeps_sends
  | |- keeps _ (call _) => apply call_keeps_sends; discriminate
  | |- keeps _ _ =>
      apply (keeps_preserved calls); [apply SendsInv_calls | solve [frame]]
  | |- keeps _ ?m => let h := head_of m in unfold h
  end.

(** X11: whatever the events, every text that reaches the collaborator's
    [send] has something other than white space in it. *)
Theorem sends_never_blank es w w' :
  run es w = Some w' ->
  forall text, In (SvcSend text) (calls w') ->
    In (SvcSend text) (calls w) \/ forallb isWhiteSpace text = false.
Proof.
  intros Hr.
  apply (run_keeps (SendsInv (calls w)) es) with (w := w); try exact Hr.
  - intros e0; destruct e0; simpl handler; repeat sends_step (calls w).
  - intros prev; repeat sends_step (calls w).
  - intros cb; destruct cb; simpl; repeat sends_step (calls w).
  - intros ts x; apply SendsInv_calls; reflexivity.
  - intros t x; apply SendsInv_calls; reflexivity.
  - intros text Hin; left; exact Hin.
Qed.

Lemma TranscriptInv_transcript w w' :
  transcript w' = transcript w -> TranscriptInv w -> TranscriptInv w'.
Proof.
  unfold transcript, TranscriptInv; intros H; injection H as -> ->; auto.
Qed.

Ltac transcript_step :=
  match goal with
  | |- keeps _ (bind _ _) => apply keeps_bind; [|intro]
  | |- keeps _ (ret _) => apply keeps_ret
  | |- keeps _ (gets _) => apply keeps_gets
  | |- keeps _ (when _ _) => apply keeps_when
  | |- keeps _ (if ?b then _ else _) => destruct b
  | |- keeps _ (match ?x with _ => _ end) => destruct x
  | |- keeps _ (setAstraResponse None) =>
      intros ? _; left; reflexivity
  | |- keeps _ _ =>
      apply (keeps_preserved transcript);
      [apply TranscriptInv_transcript | solve [frame]]
  | |- keeps _ ?m => let h := head_of m in unfold h
  end.

(** X12: on every page reached from the mounted one, the response text on
    display and the last-response ref never disagree: either no text is
    displayed, or the ref has been reset to the empty string, or both hold
    the same text. *)
Theorem transcript_agrees es w :
  run es (mounted random toLowerCase) = Some w -> TranscriptInv w.
Proof.
  intros Hr.
  apply (run_keeps TranscriptInv es) with (w := mounted random toLowerCase);
    try exact Hr.
  - intros e0; destruct e0; simpl handler;
      try solve [repeat transcript_step].
    + (* transcription *)
      intros x _; right; right.
      unfold onTranscription, bind, when; simpl.
      destruct (Nat.ltb 0 (List.length text)); reflexivity.
    + (* turn complete *)
      intros x _; right; left; reflexivity.
  - intros prev; repeat transcript_step.
  - intros cb; destruct cb; simpl; repeat transcript_step.
  - intros ts x; apply TranscriptInv_transcript; reflexivity.
  - intros t x; apply TranscriptInv_transcript; reflexivity.
  - left; apply (keeps_preserved transcript (fun x => astraResponse x = None)
                   (mount random toLowerCase)).
    + unfold transcript; intros x x' H; injection H as -> _; auto.
    + frame.
    + reflexivity.
Qed.

Lemma startsWith_refl s : startsWith s s = true.
Proof.
  induction s as [|c s IH]; simpl; [reflexivity|].
  rewrite N.eqb_refl; exact IH.
Qed.

(** A text contains each of its endings. *)
Lemma includes_suffix p s : includes s (p ++ s) = true.
Proof.
  induction p as [|c p IH]; simpl.
  - destruct s; simpl; [reflexivity|].
    rewrite N.eqb_refl, startsWith_refl; reflexivity.
  - rewrite IH; apply orb_true_r.
Qed.

(** X13: a click on the session button makes exactly one call to the
    collaborator: [stop] while connected, and while idle [start], with the
    video element exactly when vision is engaged. A start leaves the page
    idle whether it succeeds or fails. A successful start empties the error
    slot; a failed one stores the microphone message when the failure
    mentions [Permission denied] or [NotAllowedError], and otherwise a
    message that ends with, and so contains, the underlying detail. *)
Theorem session_click o w :
  exists w',
    step (ClickSession o) w = Some w' /\
    status w' = Idle /\
    (status w <> Idle -> calls w' = calls w ++ [SvcStop]) /\
    (status w = Idle ->
     calls w' = calls w ++ [SvcStart (isVisionSync w && videoMounted w)] /\
     match o with
     | StartOk => error w' = None
     | StartThrows msg =>
         if includes (js "Permission denied") msg
            || includes (js "NotAllowedError") msg
         then
           error w' =
           Some (js "Microphone access is required for the Neural Bridge. Please check your browser permissions.")
         else
           exists m,
             error w' = Some m /\
             m = (js "Neural Bridge connection failed: " ++ msg)%list /\
             includes msg m = true
     end).
Proof.
  rewrite step_handler by discriminate.
  eexists; split; [reflexivity|].
  simpl handler; autorewrite with render.
  unfold toggleSession, exec, bind, gets; cbn [fst snd].
  destruct (status w) eqn:Es; cbn [Status_eqb negb];
    [|simpl; split; [reflexivity | split; [reflexivity | discriminate]]..].
  destruct o as [|msg].
  - simpl; split; [exact Es | split; [congruence|]].
    intros _; split; reflexivity.
  - destruct (includes (js "Permission denied") msg
              || includes (js "NotAllowedError") msg).
    + split; [reflexivity | split; [congruence|]].
      intros _; split; reflexivity.
    + split; [reflexivity | split; [congruence|]].
      intros _; split; [reflexivity|].
      eexists; split; [reflexivity | split; [reflexivity|]].
      apply includes_suffix.
Qed.

(** ** The idle effect *)

(** What a run of the idle effect leaves behind. *)
Lemma idleEffect_result x :
  let x' := exec (idleEffect random) x in
  (status x <> Idle \/ enableIdleActions x = false ->
   idleAction x' = ActNone /\ idleCleanup x' = None /\ timers x' = timers x) /\
  (status x = Idle -> enableIdleActions x = true ->
   idleCleanup x' = Some (idleRuns x) /\
   actionTimeoutOf (idleRuns x) (actionTimeout x') = Some (nextHandle x) /\
   timers x' =
     timers x ++
     [{| handle := nextHandle x;
         due := now x + rnd (rnd (random (drawn x) * 8000) + 4000);
         callback := IdleOuter (idleRuns x) |}] /\
   now x' = now x).
Proof.
  unfold idleEffect, exec, bind, gets; cbn [fst snd]; split.
  - intros H.
    assert (Hc : negb (Status_eqb (status x) Idle)
                 || negb (enableIdleActions x) = true).
    { destruct H as [H | H].
      - destruct (status x); [congruence | reflexivity..].
      - rewrite H; apply orb_true_r. }
    rewrite Hc; repeat split.
  - intros Hs He; rewrite Hs, He; simpl.
    rewrite Nat.eqb_refl; repeat split.
Qed.

(** X14: whenever an event changes the session state, the render that
    follows runs the idle effect again. If the new state is not idle, or idle
    actions are disabled, the gesture is reset to none and no cleanup is
    registered; if the new state is idle and idle actions are enabled, one
    new gesture timer is set, due [8000 r + 4000] ms later for a draw [r]
    (each operation rounded to a double), and the cleanup registered is the
    one that clears it. *)
Theorem idle_effect_reruns e w w' :
  step e w = Some w' -> status w' <> status w ->
  (status w' <> Idle \/ enableIdleActions w' = false ->
   idleAction w' = ActNone /\ idleCleanup w' = None) /\
  (status w' = Idle -> enableIdleActions w' = true ->
   exists k t n,
     idleCleanup w' = Some k /\
     actionTimeoutOf k (actionTimeout w') = Some (handle t) /\
     In t (timers w') /\ callback t = IdleOuter k /\
     due t = now w' + rnd (rnd (random n * 8000) + 4000)).
Proof.
  intros Hstep Hne.
  assert (Hst : status w' = status (exec (handler e) w)).
  { apply (step_view status e w w'); try exact Hstep;
      try (intros; reflexivity);
      [intros prev; frame | intros cb; destruct cb; simpl; frame]. }
  assert (He : e <> TimerDue /\ forall d, e <> Wait d).
  { split; [intros -> | intros d ->]; unfold exec in Hst; simpl in Hst;
      congruence. }
  destruct He as [He1 He2].
  rewrite (step_handler e w He1 He2) in Hstep; injection Hstep as <-.
  set (w1 := exec (handler e) w) in *.
  assert (Hchanged : Status_eqb (status w1) (status w) = false).
  { destruct (Status_eqb (status w1) (status w)) eqn:E; [|reflexivity].
    apply Status_eqb_eq in E; congruence. }
  unfold commit, exec, bind, gets in *; cbn [fst snd] in *.
  rewrite Hchanged in *; cbn [negb when] in *.
  rewrite orb_true_r in *; cbn [when] in *.
  set (x := snd (lipSyncEffect random toLowerCase (snd (idleEffectCleanup w1))))
    in *.
  destruct (idleEffect_result x) as [Hoff Hon]; unfold exec in Hoff, Hon.
  assert (Hx : (status x, enableIdleActions x) =
               (status (snd (idleEffect random x)),
                enableIdleActions (snd (idleEffect random x)))).
  { assert (Hp : preserves (fun y => (status y, enableIdleActions y))
                   (idleEffect random)) by frame.
    symmetry; apply Hp. }
  injection Hx as Hxs Hxe.
  split.
  - intros H; rewrite <- Hxs, <- Hxe in H.
    destruct (Hoff H) as [Ha [Hc _]]; auto.
  - intros Hs Hen; rewrite <- Hxs in Hs; rewrite <- Hxe in Hen.
    destruct (Hon Hs Hen) as [Hc [Hv [Ht Hn]]].
    exists (idleRuns x),
      {| handle := nextHandle x;
         due := now x + rnd (rnd (random (drawn x) * 8000) + 4000);
         callback := IdleOuter (idleRuns x) |}, (drawn x).
    repeat split; try assumption.
    + rewrite Ht; apply in_or_app; right; left; reflexivity.
    + simpl; rewrite Hn; reflexivity.
Qed.

(** X15: the gesture picked by a draw [r], a double in [0, 1), as the code
    computes it in doubles: glance when [r] is below 0.3333333333333333, the
    largest double below 1/3; shift when [r] is at least
    0.6666666666666666, the largest double below 2/3; tilt in between. The
    thirds of the draw are each moved down by one double, because [3 r]
    rounds up to 1 and to 2 at these two draws. *)
Theorem idle_gesture_choice k w :
  let r := random (drawn w) in
  let g := idleAction (exec (idleOuter random k) w) in
  isDouble r = true -> 0 <= r < 1 ->
  (r < belowThird -> g = Glance) /\
  (belowThird <= r < belowTwoThirds -> g = Tilt) /\
  (belowTwoThirds <= r -> g = Shift) /\
  belowThird < 1 # 3 /\ belowTwoThirds < 2 # 3 /\
  isDouble belowThird = true /\ isDouble belowTwoThirds = true.
Proof.
  intros r g D [H0 H1].
  destruct (gesture_thresholds r D H0 H1) as [A [B C]].
  subst g.
  change (idleAction (exec (idleOuter random k) w))
    with (nth (Z.to_nat (Qfloor (rnd (r * 3)))) actions ActNone).
  split; [|split; [|split; [|repeat split; closed]]].
  - intros H; rewrite (A H); reflexivity.
  - intros [H H']; rewrite (B H H'); reflexivity.
  - intros H; rewrite (C H); reflexivity.
Qed.

(** X16: a transcription replaces the text on display and the ref by the
    text it carries. A non-empty text clears the typing flag; an empty one
    leaves the typing flag as it was and, on a page whose mouth showed the
    derived shape, puts the mouth back to neutral. *)
Theorem transcription_update text w :
  exists w',
    step (Transcription text) w = Some w' /\
    astraResponse w' = Some text /\ latestResponseRef w' = text /\
    (text <> [] -> isTyping w' = false) /\
    (text = [] -> isTyping w' = isTyping w /\
     (LipInv random toLowerCase w ->
      mouthShape w' = {| scale := 1; skew := 0 |})).
Proof.
  destruct (step (Transcription text) w) as [w'|] eqn:Hstep;
    [|rewrite step_handler in Hstep by discriminate; discriminate].
  exists w'; split; [reflexivity|].
  pose proof Hstep as Hs; rewrite step_handler in Hs by discriminate.
  injection Hs as Hw'.
  assert (Hf : astraResponse w' = Some text /\ latestResponseRef w' = text /\
               isTyping w' =
               if Nat.ltb 0 (List.length text) then false else isTyping w).
  { rewrite <- Hw'; simpl handler; autorewrite with render.
    unfold onTranscription, exec, bind, when; simpl.
    destruct (Nat.ltb 0 (List.length text)); repeat split. }
  destruct Hf as [Hr [Hl Ht]].
  split; [exact Hr | split; [exact Hl | split]].
  - intros Hne; rewrite Ht; destruct text; [congruence | reflexivity].
  - intros ->; split; [exact Ht|].
    intros Hlip.
    destruct (step_keeps_lip _ _ _ Hstep Hlip) as [n Hm].
    rewrite Hm, Hr; unfold mouthOf; simpl.
    rewrite orb_true_r; reflexivity.
Qed.

(** ** What changes the session state and the audio level *)

(** X17: the stored audio level changes through two events only: the
    audio-level callback, which stores the level it carries, and a click that
    stops a connected session, which stores zero. Status, error and
    turn-complete callbacks, a failed start, timers and every other event
    leave it as it was. *)
Theorem audio_level_changes e w w' :
  step e w = Some w' ->
  audioLevel w' = audioLevel w \/
  (exists level, e = AudioLevel level /\ audioLevel w' = level) \/
  (exists o, e = ClickSession o /\ status w <> Idle /\ audioLevel w' = 0%Q).
Proof.
  intros Hstep.
  rewrite (step_view audioLevel e w w'); try exact Hstep;
    try (intros; reflexivity);
    [| intros prev; frame | intros cb; destruct cb; simpl; frame].
  destruct e; simpl handler;
    try (left;
         match goal with
         | |- audioLevel (exec ?m w) = _ =>
             assert (Hp : preserves audioLevel m) by frame; apply Hp
         end).
  - unfold toggleSession, exec, bind, gets; cbn [fst snd].
    destruct (status w) eqn:Es; cbn [Status_eqb negb].
    + left; destruct o as [|msg]; [reflexivity|].
      destruct (includes (js "Permission denied") msg
                || includes (js "NotAllowedError") msg); reflexivity.
    + right; right; exists o; repeat split; discriminate.
    + right; right; exists o; repeat split; discriminate.
  - right; left; exists level; split; reflexivity.
Qed.

(** X18: the session state changes through four kinds of event only: the
    status, error and turn-complete callbacks and a click on the session
    button. No timer (blink, gesture, memory, vision), no camera, animation,
    send or text event changes it. *)
Theorem session_state_changes e w w' :
  step e w = Some w' -> status w' <> status w ->
  (exists s, e = StatusChange s /\ status w' = s) \/
  (exists msg, e = ServiceError msg /\ status w' = Idle) \/
  (e = TurnComplete /\ status w' = Idle) \/
  (exists o, e = ClickSession o /\ status w' = Idle).
Proof.
  intros Hstep.
  rewrite (step_view status e w w'); try exact Hstep;
    try (intros; reflexivity);
    [| intros prev; frame | intros cb; destruct cb; simpl; frame].
  destruct e; simpl handler; intros Hne;
    try (exfalso; apply Hne;
         match goal with
         | |- status (exec ?m w) = _ =>
             assert (Hp : preserves status m) by frame; apply Hp
         end).
  - right; right; right; exists o; split; [reflexivity|].
    revert Hne; unfold toggleSession, exec, bind, gets; cbn [fst snd].
    destruct (status w) eqn:Es; cbn [Status_eqb negb]; try reflexivity.
    destruct o as [|msg]; [simpl; congruence|].
    destruct (includes (js "Permission denied") msg
              || includes (js "NotAllowedError") msg); reflexivity.
  - left; exists s; split; [reflexivity|].
    unfold onStatusChange, exec, bind, when; simpl.
    destruct (Status_eqb s Speaking); reflexivity.
  - right; left; exists msg; split; [reflexivity|].
    unfold onError, exec, bind, when; simpl.
    destruct (includes (js "Model access denied") msg
              || includes (js "Quota exhausted") msg); reflexivity.
  - right; right; left; split; reflexivity.
Qed.

End Properties.

(** ** Sample runs *)

Lemma demoRandom_draws n :
  isDouble (demoRandom n) = true /\ 0 <= demoRandom n < 1.
Proof.
  do 5 (destruct n as [|n]; [repeat split; closed|]).
  repeat split; closed.
Qed.

(** C7: the pending gesture timer is not always cancelled. With idle actions
    switched off while a gesture timer is pending, the timer still runs and
    sets a gesture; and when the session leaves idle while a gesture is
    held, the timer that ends the hold is not cleared, reschedules the loop,
    and a gesture is set while the session is listening. *)
Theorem idle_gesture_not_cancelled :
  (exists w,
     run demoRandom lowerAscii [EnableIdleActions false; TimerDue] demoPage
     = Some w /\
     now w == 4000 /\
     status w = Idle /\ enableIdleActions w = false /\ idleAction w = Tilt) /\
  (exists w,
     run demoRandom lowerAscii [TimerDue; StatusChange Listening] demoPage
     = Some w /\
     status w = Listening /\ idleAction w = ActNone /\ idleCleanup w = None /\
     map callback (timers w) = [BlinkOuter; IdleInner 0]) /\
  (exists w,
     run demoRandom lowerAscii
       [TimerDue; StatusChange Listening; TimerDue; TimerDue; TimerDue; TimerDue;
        TimerDue; TimerDue] demoPage = Some w /\
     now w == 14500 /\ status w = Listening /\ idleAction w = Tilt).
Proof.
  split; [|split]; eexists; (split; [vm_compute; reflexivity|]);
    repeat (split; try reflexivity).
Qed.

(** C6: camera requests that overlap leave two streams running. On the
    sample page, with vision off, the vision button is clicked twice before
    the camera answers: each click runs [startCamera] up to its [await] and
    finds no bound stream to stop. When both requests are then granted, the
    tracks of both streams run; the video element holds the second stream
    and nothing refers to the first any more, so turning vision off stops
    the second only and the first keeps running. *)
Theorem overlapping_camera_requests :
  isVisionSync demoPage = false /\ liveStreams demoPage = [] /\
  isVisionSync twoRequests = false /\ liveStreams twoRequests = [] /\
  liveStreams twoGrants = [1; 0]%nat /\
  srcObject twoGrants = Some 1%nat /\ isVisionSync twoGrants = true /\
  ~ (List.length (liveStreams twoGrants) <= 1)%nat /\
  liveStreams (exec (toggleVision CameraGranted) twoGrants) = [0%nat] /\
  srcObject (exec (toggleVision CameraGranted) twoGrants) = None /\
  isVisionSync (exec (toggleVision CameraGranted) twoGrants) = false.
Proof.
  repeat split; try (vm_compute; reflexivity).
  vm_compute; lia.
Qed.

(** C2: a fresh memory update does not restart the display window. Fact A
    arrives at 0 ms and fact B at 5000 ms, while the timer set for A is
    still pending; B is on display at 5000 ms, and at 8000 ms, 3000 ms after
    it arrived, the timer set for A clears it. *)
Theorem fresh_memory_cleared_early :
  (exists w,
     run demoRandom lowerAscii
       [MemoryUpdate (js "A"); Wait 4000; TimerDue; Wait 1000;
        MemoryUpdate (js "B")] demoPage = Some w /\
     now w == 5000 /\ lastMemory w = Some (js "B")) /\
  (exists w,
     run demoRandom lowerAscii
       [MemoryUpdate (js "A"); Wait 4000; TimerDue; Wait 1000;
        MemoryUpdate (js "B"); TimerDue; TimerDue; TimerDue; TimerDue]
       demoPage = Some w /\
     now w == 8000 /\ lastMemory w = None).
Proof.
  split; eexists; (split; [vm_compute; reflexivity|]); split; reflexivity.
Qed.

(** ** Instances on the sample page *)

Lemma idle_transitions_witness :
  (exists w',
     step demoRandom lowerAscii (ClickSession StartOk)
       (set_status Speaking demoPage) = Some w' /\
     status w' = Idle /\ isTyping w' = false /\ audioLevel w' = 0%Q) /\
  In (status demoPage) [Idle; Listening; Speaking].
Proof.
  destruct (idle_transitions demoRandom lowerAscii) as [Hall [Hstop _]].
  split.
  - apply Hstop; simpl; discriminate.
  - apply (Hall [] demoPage demoPage); reflexivity.
Defined.

Lemma memory_note_window_witness :
  exists w',
    step demoRandom lowerAscii TimerDue
      (exec (onMemoryUpdate (js "A")) initial) = Some w' /\
    lastMemory w' = None /\
    (now (exec (onMemoryUpdate (js "A")) initial) <= 8000 -> now w' == 8000).
Proof.
  destruct (memory_note_window demoRandom lowerAscii (js "A")
              (exec (onMemoryUpdate (js "A")) initial)) as [_ H].
  exact (H {| handle := 0; due := 0 + 8000; callback := MemoryClear |}
           eq_refl eq_refl).
Defined.

Lemma animate_request_witness :
  step demoRandom lowerAscii
    (ClickAnimate [js "Rendering"] (AnimateOk (js "blob:video")))
    (set_isAnimating true demoPage) = Some (set_isAnimating true demoPage) /\
  exists w',
    step demoRandom lowerAscii
      (ClickAnimate [js "Rendering"]
         (AnimateThrows (ThrownValue (Some (js "QUOTA_EXHAUSTED")))))
      demoPage = Some w' /\
    isAnimating w' = false /\ animationStatus w' = [] /\ needsApiKey w' = true.
Proof.
  split.
  - exact (proj1 (animate_request demoRandom lowerAscii [js "Rendering"]
                    (AnimateOk (js "blob:video"))
                    (set_isAnimating true demoPage)) eq_refl).
  - destruct (proj2 (animate_request demoRandom lowerAscii [js "Rendering"]
                       (AnimateThrows (ThrownValue (Some (js "QUOTA_EXHAUSTED"))))
                       demoPage) eq_refl)
      as [w' [Hs [Hb [Hp [_ Hq]]]]].
    exists w'; repeat split; try assumption.
    exact (proj1 (Hq eq_refl)).
Defined.


Lemma one_camera_stream_witness :
  (List.length
     (liveStreams
        (exec (startCamera Environment CameraGranted)
           (exec (startCamera User CameraGranted) demoPage))) <= 1)%nat.
Proof.
  apply (proj2 (proj2 (proj2 (proj2 (proj2
           (one_camera_stream demoRandom lowerAscii)))))).
  split; [vm_compute; reflexivity | left; vm_compute; reflexivity].
Defined.

Lemma send_message_witness :
  step demoRandom lowerAscii (ClickSend SendOk)
    (set_textInput (js "hello") demoPage)
  = Some (set_textInput (js "hello") demoPage) /\
  exists w',
    step demoRandom lowerAscii (ClickSend SendOk)
      (set_status Listening (set_textInput (js "hello") demoPage)) = Some w' /\
    calls w' = [SvcSend (js "hello")] /\ textInput w' = [].
Proof.
  split.
  - exact (proj1 (send_message demoRandom lowerAscii SendOk
                    (set_textInput (js "hello") demoPage))
             (or_intror eq_refl)).
  - destruct (proj2 (send_message demoRandom lowerAscii SendOk
                       (set_status Listening
                          (set_textInput (js "hello") demoPage)))
                eq_refl)
      as [w' [Hs [Hc [_ [_ Ht]]]]].
    + simpl; discriminate.
    + exists w'; repeat split; assumption.
Defined.

Lemma blink_loop_witness :
  exists duration,
    isBlinking (exec (blinkOuter demoRandom) demoPage) = true /\
    timers (exec (blinkOuter demoRandom) demoPage) =
      timers demoPage ++
      [{| handle := nextHandle demoPage; due := now demoPage + duration;
          callback := BlinkInner |}] /\
    duration = rnd (rnd (demoRandom (drawn demoPage) * 50) + 100) /\
    100 <= duration <= 150.
Proof.
  exact (proj1 (proj2 (proj2 (blink_loop demoRandom lowerAscii demoPage
                                demoRandom_draws)))).
Defined.

Lemma waw_is_vowel_witness :
  mouthShape
    (exec (lipSyncEffect demoRandom lowerAscii)
       (set_astraResponse (Some [0x633; waw]%N) (set_status Speaking demoPage)))
  = {| scale := 1.2 + demoRandom 3 * 0.1; skew := 1.5 |}.
Proof.
  exact (proj1 (proj2 (proj2
    (waw_is_vowel demoRandom lowerAscii [0x633%N]
       (set_astraResponse (Some [0x633; waw]%N) (set_status Speaking demoPage))
       eq_refl eq_refl eq_refl)))).
Defined.

(** ** Runs on which the specification as written fails *)

Lemma turn_complete_keeps_audio_level :
  exists w,
    run demoRandom lowerAscii
      [ClickSession StartOk; StatusChange Speaking; AudioLevel 0.5; TurnComplete]
      demoPage = Some w /\
    status w = Idle /\ isTyping w = false /\ ~ audioLevel w == 0.
Proof.
  eexists; split; [vm_compute; reflexivity|].
  repeat split; intros H; discriminate H.
Qed.

(** At the largest draw of a generator of 52-bit fractions, itself a double
    in [0, 1), a blink lasts exactly 150 ms. *)
Lemma blink_duration_reaches_150 :
  isDouble lastDraw = true /\ 0 <= lastDraw /\ lastDraw < 1 /\
  exists t,
    timers (exec (blinkOuter lastRandom) initial) = [t] /\
    callback t = BlinkInner /\
    due t - now initial == 150 /\ ~ due t - now initial < 150.
Proof.
  repeat split; try closed.
  eexists; split; [reflexivity|].
  repeat split; closed.
Qed.

Lemma turn_complete_keeps_response :
  exists w,
    run demoRandom lowerAscii
      [ClickSession StartOk; StatusChange Speaking; Transcription (js "hi");
       TurnComplete] demoPage = Some w /\
    status w = Idle /\ astraResponse w = Some (js "hi").
Proof.
  eexists; split; [vm_compute; reflexivity|]; split; reflexivity.
Qed.

(** ** Further instances on the sample page *)

Lemma distortion_levels_witness :
  (rnd 0.1 < audioLevel (set_audioLevel 0.5 (set_status Speaking demoPage)) /\
   30 <= distortionValue (set_audioLevel 0.5 (set_status Speaking demoPage)) /\
   distortionValue (set_audioLevel 0.5 (set_status Speaking demoPage)) =
   rnd (20 + rnd (0.5 * 100))) /\
  distortionValue (set_status Listening demoPage) = 10.
Proof.
  split.
  - destruct (proj1 (proj2 (proj2
      (distortion_levels (set_audioLevel 0.5 (set_status Speaking demoPage)))))
      eq_refl) as [[H _] | H].
    + exfalso; revert H; vm_compute; intros H; apply H; reflexivity.
    + exact H.
  - exact (proj1 (proj2 (distortion_levels (set_status Listening demoPage)))
             eq_refl).
Defined.

(** At the first audio level above the threshold, 0.10000000000000002, the
    distortion amount is exactly 30, although [20 + 100 level] exceeds 30. *)
Lemma distortion_reaches_30 :
  rnd 0.1 < 7205759403792795 # 72057594037927936 /\
  30 < 20 + (7205759403792795 # 72057594037927936) * 100 /\
  distortionValue
    (set_audioLevel (7205759403792795 # 72057594037927936)
       (set_status Speaking demoPage)) == 30.
Proof. repeat split; closed. Qed.

Lemma gesture_visible_witness :
  avatarPose (set_idleAction Tilt (set_status Speaking demoPage)) =
  avatarPose (set_status Speaking demoPage) /\
  avatarPose (set_idleAction Tilt (set_status Listening demoPage)) <>
  avatarPose (set_idleAction ActNone (set_status Listening demoPage)).
Proof.
  split.
  - exact (proj1 (gesture_visible (set_status Speaking demoPage) Tilt) eq_refl).
  - apply (proj2 (gesture_visible (set_status Listening demoPage) Tilt));
      simpl; discriminate.
Defined.

Lemma api_key_request_witness :
  needsApiKey
    (exec (commit demoRandom lowerAscii (set_needsApiKey true demoPage))
       (exec (handler SelectKey) (set_needsApiKey true demoPage))) = false /\
  needsApiKey
    (exec (commit demoRandom lowerAscii demoPage)
       (exec (handler (AuthChecked NoKey)) demoPage)) = true.
Proof.
  split.
  - exact (proj1 (api_key_request demoRandom lowerAscii SelectKey
                    (set_needsApiKey true demoPage) _ eq_refl) eq_refl).
  - exact (proj1 (proj2 (api_key_request demoRandom lowerAscii
                           (AuthChecked NoKey) demoPage _ eq_refl)) eq_refl).
Defined.

Lemma animate_outcomes_witness :
  videoUrl
    (exec (handleAnimate [js "Rendering"]
             (AnimateThrows (ThrownValue (Some (js "SERVICE_UNAVAILABLE")))))
       (set_videoUrl (Some (js "blob:old")) demoPage))
  = Some (js "blob:old").
Proof.
  exact (proj1 (animate_outcomes [js "Rendering"]
                  (AnimateThrows (ThrownValue (Some (js "SERVICE_UNAVAILABLE"))))
                  (set_videoUrl (Some (js "blob:old")) demoPage) eq_refl)
           _ eq_refl).
Defined.

Lemma video_url_changes_witness :
  videoUrl
    (exec (commit demoRandom lowerAscii demoPage)
       (exec (handler (ServiceError (js "Quota exhausted"))) demoPage))
  = videoUrl demoPage \/
  exists progress url,
    ServiceError (js "Quota exhausted") =
      ClickAnimate progress (AnimateOk url) /\
    isAnimating demoPage = false /\
    videoUrl
      (exec (commit demoRandom lowerAscii demoPage)
         (exec (handler (ServiceError (js "Quota exhausted"))) demoPage))
    = Some url.
Proof.
  exact (video_url_changes demoRandom lowerAscii
           (ServiceError (js "Quota exhausted")) demoPage _ eq_refl).
Defined.

Lemma facing_mode_changes_witness :
  facingMode
    (exec (switchCamera CameraGranted)
       (exec (switchCamera CameraGranted) demoPage)) = User /\
  facingMode
    (exec (startCameraSettle Environment false CameraGranted)
       (exec (startCameraSettle Environment false CameraGranted)
          (exec startCameraRequest (exec startCameraRequest demoPage))))
  = Environment.
Proof.
  destruct (facing_mode_changes User false CameraGranted demoPage eq_refl)
    as [_ [_ [_ [H1 H2]]]].
  split; [exact H1 | exact H2].
Defined.

Lemma camera_denied_not_detached_witness :
  ~ In 0%nat
      (liveStreams
         (exec (startCamera Environment CameraDenied)
            (exec (startCamera User CameraGranted) demoPage))).
Proof.
  refine (proj2 (proj2 (proj2 (proj2 (proj2
            (camera_denied_not_detached Environment
               (exec (startCamera User CameraGranted) demoPage))))))
            _ 0%nat _);
    vm_compute; reflexivity.
Defined.

Lemma vision_attach_deferred_witness :
  timers (exec (startCamera User CameraGranted) (set_status Listening demoPage))
  = timers (set_status Listening demoPage) ++
    [{| handle := nextHandle (set_status Listening demoPage);
        due := now (set_status Listening demoPage) + 500;
        callback := VisionAttach |}].
Proof.
  refine (proj1 (proj2 (proj2
            (vision_attach_deferred demoRandom User
               (set_status Listening demoPage) _))) _).
  - vm_compute; reflexivity.
  - simpl; discriminate.
Defined.

Lemma vision_round_trip_witness :
  exists w1 w2,
    step demoRandom lowerAscii (ClickVision CameraGranted) demoPage = Some w1 /\
    step demoRandom lowerAscii (ClickVision CameraDenied) w1 = Some w2 /\
    isVisionSync w2 = false /\ liveStreams w2 = [] /\ srcObject w2 = None.
Proof.
  destruct (vision_round_trip demoRandom lowerAscii CameraDenied demoPage)
    as [w1 [w2 [H1 [H2 [_ [_ [Hv [Hl [Hs _]]]]]]]]].
  - split; [vm_compute; reflexivity | left; vm_compute; reflexivity].
  - vm_compute; reflexivity.
  - exists w1, w2; repeat split; assumption.
Defined.

Lemma sends_never_blank_witness :
  In (SvcSend (js "hello"))
    (calls (set_textInput (js "hello") (set_status Listening demoPage))) \/
  forallb isWhiteSpace (js "hello") = false.
Proof.
  refine (sends_never_blank demoRandom lowerAscii [ClickSend SendOk]
            (set_textInput (js "hello") (set_status Listening demoPage)) _
            eq_refl (js "hello") _).
  vm_compute; left; reflexivity.
Defined.

Lemma transcript_agrees_witness :
  TranscriptInv
    (exec (commit demoRandom lowerAscii demoPage)
       (exec (handler (Transcription (js "hi"))) demoPage)).
Proof.
  exact (transcript_agrees demoRandom lowerAscii [Transcription (js "hi")] _
           eq_refl).
Defined.

Lemma session_click_witness :
  exists w',
    step demoRandom lowerAscii (ClickSession (StartThrows (js "timeout")))
      demoPage = Some w' /\
    status w' = Idle /\
    calls w' = [SvcStart false] /\
    error w' = Some (js "Neural Bridge connection failed: timeout").
Proof.
  destruct (session_click demoRandom lowerAscii (StartThrows (js "timeout"))
              demoPage) as [w' [Hs [Hi [_ Hstart]]]].
  destruct (Hstart eq_refl) as [Hc [m [He [Hm _]]]].
  exists w'; repeat split; try assumption.
  rewrite He, Hm; reflexivity.
Defined.

Lemma idle_effect_reruns_witness :
  idleAction
    (exec (commit demoRandom lowerAscii (set_idleAction Tilt demoPage))
       (exec (handler (StatusChange Listening)) (set_idleAction Tilt demoPage)))
  = ActNone.
Proof.
  refine (proj1 (proj1 (idle_effect_reruns demoRandom lowerAscii
                          (StatusChange Listening)
                          (set_idleAction Tilt demoPage) _ eq_refl _) _)).
  - vm_compute; discriminate.
  - left; vm_compute; discriminate.
Defined.

Lemma idle_gesture_choice_witness :
  idleAction (exec (idleOuter demoRandom 0) demoPage) = Tilt /\
  idleAction (exec (idleOuter (fun _ => belowThird) 0) initial) = Tilt.
Proof.
  split.
  - refine (proj1 (proj2 (idle_gesture_choice demoRandom 0 demoPage _ _)) _);
      repeat split; closed.
  - refine (proj1 (proj2 (idle_gesture_choice (fun _ => belowThird) 0 initial
                            _ _)) _);
      repeat split; closed.
Defined.

Lemma transcription_update_witness :
  exists w',
    step demoRandom lowerAscii (Transcription []) demoPage = Some w' /\
    isTyping w' = isTyping demoPage /\
    mouthShape w' = {| scale := 1; skew := 0 |}.
Proof.
  destruct (transcription_update demoRandom lowerAscii [] demoPage)
    as [w' [Hs [_ [_ [_ He]]]]].
  destruct (He eq_refl) as [Ht Hm].
  exists w'; repeat split; try assumption.
  apply Hm; exact (mounted_lip demoRandom lowerAscii).
Defined.

Lemma idle_loop_schedule_witness :
  exists delay,
    timers (exec (scheduleAction demoRandom 0) demoPage) =
      timers demoPage ++
      [{| handle := nextHandle demoPage; due := now demoPage + delay;
          callback := IdleOuter 0 |}] /\
    delay = rnd (rnd (demoRandom (drawn demoPage) * 8000) + 4000) /\
    4000 <= delay <= 12000.
Proof.
  exact (proj1 (idle_loop_schedule demoRandom 0 demoPage demoRandom_draws)).
Defined.

(** Both upper ends are reached: the hold is 3000 ms at the draw
    0.9999999999999998 and the delay 12000 ms at the draw
    0.9999999999999999. *)
Lemma idle_loop_upper_ends :
  isDouble lastDraw = true /\ lastDraw < 1 /\
  rnd (2000 + rnd (lastDraw * 1000)) == 3000 /\
  isDouble lastDouble = true /\ lastDouble < 1 /\
  rnd (rnd (lastDouble * 8000) + 4000) == 12000.
Proof. repeat split; closed. Qed.

Lemma audio_level_changes_witness :
  audioLevel
    (exec (commit demoRandom lowerAscii
             (set_audioLevel 0.5 (set_status Speaking demoPage)))
       (exec (handler TurnComplete)
          (set_audioLevel 0.5 (set_status Speaking demoPage))))
  = 0.5 \/
  (exists level, TurnComplete = AudioLevel level) \/
  (exists o, TurnComplete = ClickSession o).
Proof.
  destruct (audio_level_changes demoRandom lowerAscii TurnComplete
              (set_audioLevel 0.5 (set_status Speaking demoPage)) _ eq_refl)
    as [H | [[level [H _]] | [o [H _]]]].
  - left; exact H.
  - right; left; exists level; exact H.
  - right; right; exists o; exact H.
Defined.

Lemma session_state_changes_witness :
  (exists s,
     StatusChange Speaking = StatusChange s /\
     status
       (exec (commit demoRandom lowerAscii demoPage)
          (exec (handler (StatusChange Speaking)) demoPage)) = s) \/
  (exists msg,
     StatusChange Speaking = ServiceError msg /\
     status
       (exec (commit demoRandom lowerAscii demoPage)
          (exec (handler (StatusChange Speaking)) demoPage)) = Idle) \/
  (StatusChange Speaking = TurnComplete /\
   status
     (exec (commit demoRandom lowerAscii demoPage)
        (exec (handler (StatusChange Speaking)) demoPage)) = Idle) \/
  (exists o,
     StatusChange Speaking = ClickSession o /\
     status
       (exec (commit demoRandom lowerAscii demoPage)
          (exec (handler (StatusChange Speaking)) demoPage)) = Idle).
Proof.
  refine (session_state_changes demoRandom lowerAscii (StatusChange Speaking)
            demoPage _ eq_refl _).
  vm_compute; discriminate.
Defined.
